(** * jwt-go: segment codec, HMAC signing method, token model and
      standard-claims validation.

    A shallow embedding of [token.go], [hmac.go], [claims.go] and the
    error declarations of package [jwt], together with the parts of the
    Go standard library they call ([encoding/base64], [strings],
    [crypto/subtle]).

    Conventions.
    - A Go [string] is a [String.string]; a [[]byte] is a [list byte];
      the conversions [[]byte(s)] and [string(b)] are
      [list_byte_of_string] and [string_of_list_byte].
    - [int], [int64], [uint] and [uint32] values are [Z]; where the Go
      operation can leave the range, the wrap-around is written out.
    - A Go function returning [(T, error)] returns a pair whose second
      component is an [option error]; [None] is Go's [nil]. *)

From Stdlib Require Import ZArith Lia List String Ascii Bool.
From Stdlib.Strings Require Import Byte.
From coqutil Require Import Z.bitblast.
Import ListNotations.
Local Open Scope Z_scope.

(** ** Bytes and Go strings *)

Definition uint8_to_Z (b : byte) : Z := Z.of_N (Byte.to_N b).

(** The conversion [byte(x)] of an unsigned integer: the low eight bits. *)
Definition Z_to_uint8 (z : Z) : byte :=
  match Byte.of_N (Z.to_N (z mod 256)) with
  | Some b => b
  | None => x00
  end.

Definition bytes (s : string) : list byte := list_byte_of_string s.
Definition gostring (b : list byte) : string := string_of_list_byte b.

(** [len(s)] as a Go [int]. *)
Definition len (s : string) : Z := Z.of_nat (String.length s).

(** [a[i]] for a fixed-size byte array; the index is always in range in
    the code below. *)
Definition index (a : list byte) (i : Z) : byte := nth (Z.to_nat i) a x00.

(** [a[i] = v] for an array or slice and an index in range. *)
Fixpoint store {A : Type} (a : list A) (i : nat) (v : A) : list A :=
  match a, i with
  | [], _ => []
  | _ :: t, O => v :: t
  | h :: t, S i' => h :: store t i' v
  end.

(** ** Error values *)

(** The [error] values that the modelled functions can return.
    [ErrInvalidKey], [ErrInvalidKeyType] and [ErrHashUnavailable] are the
    package's error constants, [ErrSignatureInvalid] is declared in
    [hmac.go], [CorruptInputError] is [encoding/base64]'s error type (the
    offset of the offending input byte), [Errorf] is the value built by
    [fmt.Errorf] from a format and its operands, and [ExternalError]
    stands for the errors of collaborators outside the package (the JSON
    marshaller, other signing methods). *)
Inductive fmt_arg : Type :=
| ArgDuration (nanoseconds : Z).

Inductive error : Type :=
| ErrInvalidKey
| ErrInvalidKeyType
| ErrHashUnavailable
| ErrSignatureInvalid
| CorruptInputError (offset : Z)
| Errorf (format : string) (args : list fmt_arg)
| ExternalError (text : string).

(** ** [strings] *)

Module strings.

(** [strings.IndexByte(s, c) >= 0]: the byte [c] occurs in [s]. *)
Fixpoint ContainsByte (s : string) (c : ascii) : bool :=
  match s with
  | EmptyString => false
  | String d s' => Ascii.eqb c d || ContainsByte s' c
  end.

(** [strings.TrimRight(s, cutset)]: [s] without its trailing characters
    that occur in [cutset].  The cut set used by the package is the
    single ASCII character [=], for which Go compares bytes. *)
Fixpoint TrimRight (s cutset : string) : string :=
  match s with
  | EmptyString => EmptyString
  | String c s' =>
      match TrimRight s' cutset with
      | EmptyString =>
          if ContainsByte cutset c then EmptyString else String c EmptyString
      | t => String c t
      end
  end.

(** [strings.Repeat(s, count)] for a count that is not negative. *)
Fixpoint Repeat_nat (s : string) (count : nat) : string :=
  match count with
  | O => EmptyString
  | S n => s ++ Repeat_nat s n
  end.

Definition Repeat (s : string) (count : Z) : string :=
  Repeat_nat s (Z.to_nat count).

(** [strings.Join(elems, sep)]. *)
Fixpoint Join (elems : list string) (sep : string) : string :=
  match elems with
  | [] => EmptyString
  | [e] => e
  | e :: rest => e ++ sep ++ Join rest sep
  end.

End strings.

(** ** [crypto/subtle] *)

Module subtle.

(** [ConstantTimeByteEq(x, y) = int((uint32(x^y) - 1) >> 31)]; the
    subtraction is on [uint32] and wraps. *)
Definition ConstantTimeByteEq (x y : byte) : Z :=
  Z.shiftr ((Z.lxor (uint8_to_Z x) (uint8_to_Z y) - 1) mod 2 ^ 32) 31.

(** The loop [v |= x[i] ^ y[i]] over two slices of equal length. *)
Fixpoint xor_fold (x y : list byte) (v : Z) : Z :=
  match x, y with
  | a :: x', b :: y' =>
      xor_fold x' y' (Z.lor v (Z.lxor (uint8_to_Z a) (uint8_to_Z b)))
  | _, _ => v
  end.

Definition ConstantTimeCompare (x y : list byte) : Z :=
  if negb (Nat.eqb (List.length x) (List.length y)) then 0
  else ConstantTimeByteEq (Z_to_uint8 (xor_fold x y 0)) x00.

End subtle.

(** ** [encoding/base64] *)

Module base64.

Definition encodeURL : string :=
  "ABCDEFGHIJKLMNOPQRSTUVWXYZabcdefghijklmnopqrstuvwxyz0123456789-_".

Definition StdPadding : Z := 61.   (* the rune '=' *)
Definition NoPadding : Z := -1.

Record Encoding : Type := mkEncoding {
  encode : list byte;      (* [64]byte *)
  decodeMap : list byte;   (* [256]byte *)
  padChar : Z;             (* rune *)
  strict : bool
}.

(** The second loop of [NewEncoding]:
    [decodeMap[encoder[i]] = byte(i)], from the index [i] on. *)
Fixpoint fillDecodeMap (encoder : list byte) (i : Z) (m : list byte)
  : list byte :=
  match encoder with
  | [] => m
  | c :: rest =>
      fillDecodeMap rest (i + 1)
        (store m (N.to_nat (Byte.to_N c)) (Z_to_uint8 i))
  end.

Definition NewEncoding (encoder : string) : Encoding :=
  {| encode := bytes encoder;
     decodeMap := fillDecodeMap (bytes encoder) 0 (repeat xff 256);
     padChar := StdPadding;
     strict := false |}.

Definition URLEncoding : Encoding := NewEncoding encodeURL.

Section WithEncoding.
Variable enc : Encoding.

Definition rune (c : byte) : Z := uint8_to_Z c.

Definition padding : list byte :=
  if padChar enc =? NoPadding then [] else [Z_to_uint8 (padChar enc)].

(** [enc.encode[val>>k&0x3F]] *)
Definition sextet (val k : Z) : byte :=
  index (encode enc) (Z.land (Z.shiftr val k) 63).

(** [Encode]: whole groups of three bytes first, then the remaining
    one or two bytes; the result is the filled destination buffer,
    whose length is [EncodedLen(len(src))].  The [uint] operands stay
    below [2^24]. *)
Fixpoint Encode (src : list byte) : list byte :=
  match src with
  | [] => []
  | b0 :: b1 :: b2 :: rest =>
      let val := Z.lor (Z.lor (Z.shiftl (uint8_to_Z b0) 16)
                              (Z.shiftl (uint8_to_Z b1) 8))
                       (uint8_to_Z b2) in
      sextet val 18 :: sextet val 12 :: sextet val 6 :: sextet val 0
        :: Encode rest
  | [b0; b1] =>
      let val := Z.lor (Z.shiftl (uint8_to_Z b0) 16)
                       (Z.shiftl (uint8_to_Z b1) 8) in
      sextet val 18 :: sextet val 12 :: sextet val 6 :: padding
  | [b0] =>
      let val := Z.shiftl (uint8_to_Z b0) 16 in
      sextet val 18 :: sextet val 12 :: padding ++ padding
  end.

Definition EncodeToString (src : list byte) : string :=
  gostring (Encode src).

Definition isNewline (c : byte) : bool :=
  Byte.eqb c x0a || Byte.eqb c x0d.

(** [for si < len(src) && (src[si] == '\n' || src[si] == '\r') { si++ }];
    the source is read through a cursor: the bytes not yet consumed
    and the count [si] of those consumed. *)
Fixpoint skipNewlines (rest : list byte) (si : Z) : list byte * Z :=
  match rest with
  | c :: rest' =>
      if isNewline c then skipNewlines rest' (si + 1) else (rest, si)
  | [] => (rest, si)
  end.

(** The result of [decodeQuantum]: the cursor after the call, the
    bytes [dst[:n]] and the error. *)
Definition quantum : Type := list byte * Z * list byte * option error.

(** The conversion of the collected sextets into bytes, at the end of
    [decodeQuantum]. *)
Definition assemble (dbuf : list byte) (dlen : nat)
    (rest : list byte) (si : Z) (err : option error) : quantum :=
  let val :=
    Z.lor (Z.lor (Z.lor (Z.shiftl (uint8_to_Z (index dbuf 0)) 18)
                        (Z.shiftl (uint8_to_Z (index dbuf 1)) 12))
                 (Z.shiftl (uint8_to_Z (index dbuf 2)) 6))
          (uint8_to_Z (index dbuf 3)) in
  let d2 := Z_to_uint8 (Z.shiftr val 0) in
  let d1 := Z_to_uint8 (Z.shiftr val 8) in
  let d0 := Z_to_uint8 (Z.shiftr val 16) in
  match dlen with
  | 4%nat => (rest, si, [d0; d1; d2], err)
  | 3%nat =>
      if strict enc && negb (Byte.eqb d2 x00)
      then (rest, si, [], Some (CorruptInputError (si - 1)))
      else (rest, si, [d0; d1], err)
  | 2%nat =>
      if strict enc && (negb (Byte.eqb d1 x00) || negb (Byte.eqb d2 x00))
      then (rest, si, [], Some (CorruptInputError (si - 2)))
      else (rest, si, [d0], err)
  | _ => (rest, si, [], err)
  end.

(** After the padding of a quantum: skip newlines; anything left is
    trailing garbage. *)
Definition afterPadding (dbuf : list byte) (j : nat)
    (rest : list byte) (si : Z) : quantum :=
  let '(rest1, si1) := skipNewlines rest si in
  let err := match rest1 with
             | [] => None
             | _ :: _ => Some (CorruptInputError si1)
             end in
  assemble dbuf j rest1 si1 err.

(** The loop [for j := 0; j < len(dbuf); j++] of [decodeQuantum],
    entered with the current [j] and [dbuf]. *)
Fixpoint quantumLoop (rest : list byte) (si : Z) (j : nat)
    (dbuf : list byte) : quantum :=
  if (4 <=? j)%nat then assemble dbuf 4 rest si None
  else
    match rest with
    | [] =>
        match j with
        | O => (rest, si, [], None)
        | _ =>
            if (j =? 1)%nat || negb (padChar enc =? NoPadding)
            then (rest, si, [], Some (CorruptInputError (si - Z.of_nat j)))
            else assemble dbuf j rest si None
        end
    | c :: rest' =>
        let si := si + 1 in
        let out := index (decodeMap enc) (uint8_to_Z c) in
        if negb (Byte.eqb out xff)
        then quantumLoop rest' si (S j) (store dbuf j out)
        else if isNewline c
        then quantumLoop rest' si j dbuf
        else if negb (rune c =? padChar enc)
        then (rest', si, [], Some (CorruptInputError (si - 1)))
        else
          match j with
          | 0%nat | 1%nat =>
              (rest', si, [], Some (CorruptInputError (si - 1)))
          | 2%nat =>
              let '(rest2, si2) := skipNewlines rest' si in
              match rest2 with
              | [] =>
                  (* not enough padding: the offset is [len(src)] *)
                  (rest2, si2, [],
                   Some (CorruptInputError (si2 + Z.of_nat (List.length rest2))))
              | c2 :: rest3 =>
                  if negb (rune c2 =? padChar enc)
                  then (rest2, si2, [], Some (CorruptInputError (si2 - 1)))
                  else afterPadding dbuf j rest3 (si2 + 1)
              end
          | _ => afterPadding dbuf j rest' si
          end
    end.

Definition decodeQuantum (rest : list byte) (si : Z) : quantum :=
  quantumLoop rest si 0 [x00; x00; x00; x00].

(** The loop [for si < len(src)] of [Decode].  (The two loops before
    it in the Go source decode eight and four alphabet characters at
    a time and fall back to [decodeQuantum]; they compute the same
    bytes.)  Every call of [decodeQuantum] on a non-empty rest
    consumes input, so [fuel] as large as the rest suffices
    ([Decode_fuel] below); [None] is fuel exhaustion. *)
Fixpoint decodeFrom (fuel : nat) (rest : list byte) (si : Z)
    (acc : list byte) : option (list byte * option error) :=
  match rest with
  | [] => Some (acc, None)
  | _ :: _ =>
      match fuel with
      | O => None
      | S fuel' =>
          let '(rest', si', out, err) := decodeQuantum rest si in
          match err with
          | Some e => Some (acc ++ out, Some e)
          | None => decodeFrom fuel' rest' si' (acc ++ out)
          end
      end
  end.

Definition Decode (src : list byte) : list byte * option error :=
  match decodeFrom (List.length src) src 0 [] with
  | Some r => r
  | None => ([], None)
  end.

Definition DecodeString (s : string) : list byte * option error :=
  Decode (bytes s).

End WithEncoding.

End base64.

(** ** [token.go]: the segment codec *)

Definition EncodeSegment (seg : list byte) : string :=
  strings.TrimRight (base64.EncodeToString base64.URLEncoding seg) "=".

Definition DecodeSegment (seg : string) : list byte * option error :=
  let l := len seg mod 4 in
  let seg := if 0 <? l then (seg ++ strings.Repeat "=" (4 - l))%string else seg in
  base64.DecodeString base64.URLEncoding seg.

(** ** The error declarations of the package *)

(** [1 << iota] *)
Definition ValidationErrorMalformed : Z := Z.shiftl 1 0.
Definition ValidationErrorUnverifiable : Z := Z.shiftl 1 1.
Definition ValidationErrorSignatureInvalid : Z := Z.shiftl 1 2.
Definition ValidationErrorAudience : Z := Z.shiftl 1 3.
Definition ValidationErrorExpired : Z := Z.shiftl 1 4.
Definition ValidationErrorIssuedAt : Z := Z.shiftl 1 5.
Definition ValidationErrorIssuer : Z := Z.shiftl 1 6.
Definition ValidationErrorNotValidYet : Z := Z.shiftl 1 7.
Definition ValidationErrorId : Z := Z.shiftl 1 8.
Definition ValidationErrorClaimsInvalid : Z := Z.shiftl 1 9.

Record ValidationError : Type := mkValidationError {
  Inner : option error;
  Errors : Z;          (* uint32 bitfield *)
  text : string
}.

Definition NewValidationError (errorText : string) (errorFlags : Z)
  : ValidationError :=
  {| Inner := None; Errors := errorFlags; text := errorText |}.

(** [new(ValidationError)]: the zero value. *)
Definition zeroValidationError : ValidationError :=
  {| Inner := None; Errors := 0; text := "" |}.

Definition valid (e : ValidationError) : bool := Errors e =? 0.

Section ValidationErrorText.
(** [inner_Error] is the [Error()] method of the error stored in
    [Inner], which is an error of any type. *)
Variable inner_Error : error -> string.

(** [ValidationError.Error()] *)
Definition ValidationError_Error (e : ValidationError) : string :=
  match Inner e with
  | Some inner => inner_Error inner
  | None =>
      if negb (String.eqb (text e) "") then text e
      else "token is invalid"%string
  end.
End ValidationErrorText.

(** ** [hmac.go] *)

(** The dynamic value of an [interface{}] key: a [[]byte], or a value of
    another type (a string, a nil interface, a key of another family,
    also a named type over [[]byte]), for which the type assertion
    [key.([]byte)] fails. *)
Inductive iface : Type :=
| IfaceNil
| IfaceBytes (b : list byte)
| IfaceString (s : string)
| IfaceOther (typeName : string).

(** The signing-method interface: [Alg], [Sign] and [Verify]. *)
Record SigningMethod : Type := mkSigningMethod {
  Alg : unit -> string;
  Sign : string -> iface -> string * option error;
  Verify : string -> string -> iface -> option error
}.

(** [crypto.Hash] is an unsigned integer naming a hash function. *)
Definition crypto_Hash : Type := Z.
Definition crypto_SHA256 : crypto_Hash := 5.
Definition crypto_SHA384 : crypto_Hash := 6.
Definition crypto_SHA512 : crypto_Hash := 7.

Record SigningMethodHMAC : Type := mkSigningMethodHMAC {
  Name : string;
  Hash : crypto_Hash
}.

Definition SigningMethodHS256 : SigningMethodHMAC :=
  {| Name := "HS256"; Hash := crypto_SHA256 |}.
Definition SigningMethodHS384 : SigningMethodHMAC :=
  {| Name := "HS384"; Hash := crypto_SHA384 |}.
Definition SigningMethodHS512 : SigningMethodHMAC :=
  {| Name := "HS512"; Hash := crypto_SHA512 |}.

Module hmac.
(** [hmac.Equal(mac1, mac2)] *)
Definition Equal (mac1 mac2 : list byte) : bool :=
  subtle.ConstantTimeCompare mac1 mac2 =? 1.
End hmac.

Section HMAC.
(** The cryptographic primitives of the Go library are parameters:
    [Available h] is [h.Available()], and [hmac_Sum h key msg] is the
    value of [hasher.Sum(nil)] after [hasher := hmac.New(h.New, key)]
    and [hasher.Write(msg)]. *)
Variable Available : crypto_Hash -> bool.
Variable hmac_Sum : crypto_Hash -> list byte -> list byte -> list byte.

Definition HMAC_Alg (m : SigningMethodHMAC) : string := Name m.

Definition HMAC_Verify (m : SigningMethodHMAC)
    (signingString signature : string) (key : iface) : option error :=
  match key with
  | IfaceBytes keyBytes =>
      let '(sig, err) := DecodeSegment signature in
      match err with
      | Some e => Some e
      | None =>
          if negb (Available (Hash m)) then Some ErrHashUnavailable
          else
            if negb (hmac.Equal sig
                       (hmac_Sum (Hash m) keyBytes (bytes signingString)))
            then Some ErrSignatureInvalid
            else None
      end
  | _ => Some ErrInvalidKeyType
  end.

Definition HMAC_Sign (m : SigningMethodHMAC)
    (signingString : string) (key : iface) : string * option error :=
  match key with
  | IfaceBytes keyBytes =>
      if negb (Available (Hash m)) then (EmptyString, Some ErrHashUnavailable)
      else
        (EncodeSegment (hmac_Sum (Hash m) keyBytes (bytes signingString)),
         None)
  | _ => (EmptyString, Some ErrInvalidKeyType)
  end.

(** [*SigningMethodHMAC] as a [SigningMethod]. *)
Definition HMAC_SigningMethod (m : SigningMethodHMAC) : SigningMethod :=
  {| Alg := fun _ => HMAC_Alg m;
     Sign := HMAC_Sign m;
     Verify := HMAC_Verify m |}.
End HMAC.

(** ** [claims.go] *)

Record StandardClaims : Type := mkStandardClaims {
  Audience : string;
  ExpiresAt : Z;    (* int64 *)
  Id : string;
  IssuedAt : Z;     (* int64 *)
  Issuer : string;
  NotBefore : Z;    (* int64 *)
  Subject : string
}.

Definition verifyAud (aud cmp : string) (required : bool) : bool :=
  if String.eqb aud "" then negb required
  else
    if negb (subtle.ConstantTimeCompare (bytes aud) (bytes cmp) =? 0)
    then true else false.

Definition verifyExp (exp now : Z) (required : bool) : bool :=
  if exp =? 0 then negb required else now <=? exp.

Definition verifyIat (iat now : Z) (required : bool) : bool :=
  if iat =? 0 then negb required else now >=? iat.

Definition verifyIss (iss cmp : string) (required : bool) : bool :=
  if String.eqb iss "" then negb required
  else
    if negb (subtle.ConstantTimeCompare (bytes iss) (bytes cmp) =? 0)
    then true else false.

Definition verifyNbf (nbf now : Z) (required : bool) : bool :=
  if nbf =? 0 then negb required else now >=? nbf.

Definition VerifyAudience (c : StandardClaims) (cmp : string) (req : bool) : bool :=
  verifyAud (Audience c) cmp req.

Definition VerifyExpiresAt (c : StandardClaims) (cmp : Z) (req : bool) : bool :=
  verifyExp (ExpiresAt c) cmp req.

Definition VerifyIssuedAt (c : StandardClaims) (cmp : Z) (req : bool) : bool :=
  verifyIat (IssuedAt c) cmp req.

Definition VerifyIssuer (c : StandardClaims) (cmp : string) (req : bool) : bool :=
  verifyIss (Issuer c) cmp req.

Definition VerifyNotBefore (c : StandardClaims) (cmp : Z) (req : bool) : bool :=
  verifyNbf (NotBefore c) cmp req.

Module time.
(** An instant built by [time.Unix(sec, nsec)]. *)
Record Time : Type := mkTime { sec : Z; nsec : Z }.

Definition Unix (s ns : Z) : Time := {| sec := s; nsec := ns |}.

(** [t.Unix()]: the seconds since the epoch. *)
Definition Unix_of (t : Time) : Z := sec t.

Definition minDuration : Z := - 2 ^ 63.
Definition maxDuration : Z := 2 ^ 63 - 1.

(** [t.Sub(u)]: the difference in nanoseconds, which saturates at the
    smallest and largest [Duration]. *)
Definition Sub (t u : Time) : Z :=
  let d := (sec t - sec u) * 1000000000 + (nsec t - nsec u) in
  if d <? minDuration then minDuration
  else if maxDuration <? d then maxDuration
  else d.
End time.

Section Claims.
(** The package variable [TimeFunc], the source of the current time. *)
Variable TimeFunc : unit -> time.Time.

(** The body of [Valid] up to its last test: the accumulated
    [ValidationError]. *)
Definition StandardClaims_Valid_vErr (c : StandardClaims) : ValidationError :=
  let vErr := zeroValidationError in
  let now := time.Unix_of (TimeFunc tt) in
  let vErr :=
    if Bool.eqb (VerifyExpiresAt c now false) false then
      let delta := time.Sub (time.Unix now 0) (time.Unix (ExpiresAt c) 0) in
      {| Inner := Some (Errorf "token is expired by %v" [ArgDuration delta]);
         Errors := Z.lor (Errors vErr) ValidationErrorExpired;
         text := text vErr |}
    else vErr in
  let vErr :=
    if Bool.eqb (VerifyIssuedAt c now false) false then
      {| Inner := Some (Errorf "Token used before issued" []);
         Errors := Z.lor (Errors vErr) ValidationErrorIssuedAt;
         text := text vErr |}
    else vErr in
  let vErr :=
    if Bool.eqb (VerifyNotBefore c now false) false then
      {| Inner := Some (Errorf "token is not valid yet" []);
         Errors := Z.lor (Errors vErr) ValidationErrorNotValidYet;
         text := text vErr |}
    else vErr in
  vErr.

(** [Valid]: [nil] when the accumulated error is [valid()], the
    accumulated error otherwise. *)
Definition StandardClaims_Valid (c : StandardClaims)
  : option ValidationError :=
  let vErr := StandardClaims_Valid_vErr c in
  if valid vErr then None else Some vErr.
End Claims.

(** ** [token.go]: the token model *)

(** A token whose claims have type [C]. *)
Record Token (C : Type) : Type := mkToken {
  Raw : string;
  Method : SigningMethod;
  Header : list (string * iface);   (* map[string]interface{} *)
  Claims : C;
  Signature : string;
  Valid : bool
}.
Arguments mkToken {C}.
Arguments Raw {C}.
Arguments Method {C}.
Arguments Header {C}.
Arguments Claims {C}.
Arguments Signature {C}.
Arguments Valid {C}.

Definition NewWithClaims {C : Type} (method : SigningMethod) (claims : C)
  : Token C :=
  {| Raw := "";
     Method := method;
     Header := [("typ"%string, IfaceString "JWT");
                ("alg"%string, IfaceString (Alg method tt))];
     Claims := claims;
     Signature := "";
     Valid := false |}.

Section TokenSigning.
(** [json.Marshal], the external structured-data codec. *)
Variable json_Marshal : forall A : Type, A -> list byte * option error.
Variable C : Type.

(** The body of the loop [for i := range parts] from index [i] on; the
    loop leaves with the error of the first marshalling that fails. *)
Fixpoint SigningString_parts (t : Token C) (indices : list nat)
    (parts : list string) : list string + error :=
  match indices with
  | [] => inl parts
  | i :: rest =>
      let '(jsonValue, err) :=
        if (i =? 0)%nat then json_Marshal _ (Header t)
        else json_Marshal _ (Claims t) in
      match err with
      | Some e => inr e
      | None =>
          SigningString_parts t rest (store parts i (EncodeSegment jsonValue))
      end
  end.

Definition SigningString (t : Token C) : string * option error :=
  let parts := [EmptyString; EmptyString] in   (* make([]string, 2) *)
  match SigningString_parts t [0%nat; 1%nat] parts with
  | inr err => (EmptyString, Some err)
  | inl parts => (strings.Join parts ".", None)
  end.

Definition SignedString (t : Token C) (key : iface) : string * option error :=
  let '(sstr, err) := SigningString t in
  match err with
  | Some e => (EmptyString, Some e)
  | None =>
      let '(sig, err) := Sign (Method t) sstr key in
      match err with
      | Some e => (EmptyString, Some e)
      | None => (strings.Join [sstr; sig] ".", None)
      end
  end.
End TokenSigning.

(** ** Vocabulary of the statements *)

Definition URL : base64.Encoding := base64.URLEncoding.

(** [inAlphabet c]: [c] is one of the 64 characters of [encodeURL]. *)
Definition inAlphabet (c : byte) : bool :=
  existsb (Byte.eqb c) (bytes base64.encodeURL).

(** [decoded c] is [decodeMap[c]] of the URL encoding. *)
Definition decoded (c : byte) : byte :=
  index (base64.decodeMap URL) (uint8_to_Z c).

(** Four sextets joined into 24 bits, one sextet of a 24-bit value, and
    three bytes packed into 24 bits. *)
Definition join4 (d0 d1 d2 d3 : Z) : Z :=
  Z.lor (Z.lor (Z.lor (Z.shiftl d0 18) (Z.shiftl d1 12)) (Z.shiftl d2 6)) d3.

Definition six (v k : Z) : Z := Z.land (Z.shiftr v k) 63.

Definition pack3 (x y z : Z) : Z :=
  Z.lor (Z.lor (Z.shiftl x 16) (Z.shiftl y 8)) z.

(** [RawURLEncoding], that is [URLEncoding.WithPadding(NoPadding)]: the
    text that [EncodeSegment] is shown to produce. *)
Definition RawURL : base64.Encoding :=
  {| base64.encode := base64.encode URL;
     base64.decodeMap := base64.decodeMap URL;
     base64.padChar := base64.NoPadding;
     base64.strict := false |}.

(** The number of [=] that [Encode] appends to the encoding of [b]. *)
Fixpoint padCount (b : list byte) : nat :=
  match b with
  | [] => 0
  | [_] => 2
  | [_; _] => 1
  | _ :: _ :: _ :: rest => padCount rest
  end.

(** [isCorrupt err]: [err] is [nil] or a [CorruptInputError]. *)
Definition isCorrupt (e : option error) : Prop :=
  match e with
  | None | Some (CorruptInputError _) => True
  | Some _ => False
  end.

(** The characters the decoder accepts somewhere in its input. *)
Definition accepted (c : byte) : bool :=
  inAlphabet c || base64.isNewline c || Byte.eqb c x3d.

(** [consumed rest q]: the quantum [q] read from [rest] leaves a suffix
    of [rest], raises only [CorruptInputError], and when it raises no
    error it has consumed accepted characters only. *)
Definition consumed (rest : list byte) (q : base64.quantum) : Prop :=
  let '(rest', _, _, err) := q in
  isCorrupt err /\
  exists pre, rest = pre ++ rest' /\
              (err = None -> Forall (fun c => accepted c = true) pre).

(** The text that [DecodeSegment] hands to the decoder. *)
Definition repad (raw : list byte) : list byte :=
  let l := Z.of_nat (List.length raw) mod 4 in
  if 0 <? l then raw ++ repeat x3d (Z.to_nat (4 - l)) else raw.

(** [hasBit errors flag] is the test [errors&flag != 0]. *)
Definition hasBit (errors flag : Z) : bool := negb (Z.land errors flag =? 0).

(** The three messages that [Valid] stores in [Inner]. *)
Definition expiredCause (now exp : Z) : error :=
  Errorf "token is expired by %v"
    [ArgDuration (time.Sub (time.Unix now 0) (time.Unix exp 0))].
Definition issuedAtCause : error := Errorf "Token used before issued" [].
Definition notValidYetCause : error := Errorf "token is not valid yet" [].

(** A clock that always shows the instant [now]. *)
Definition clock (now : Z) : unit -> time.Time := fun _ => time.Unix now 0.

(** [yields j rest q]: the quantum [q], read from [rest] after [j]
    sextets, returns at most three bytes, and returns bytes only when the
    quantum spans at least four characters. *)
Definition yields (j : nat) (rest : list byte) (q : base64.quantum) : Prop :=
  let '(rest', _, out, _) := q in
  (List.length rest' <= List.length rest)%nat /\
  (List.length out <= 3)%nat /\
  (out <> [] -> (List.length rest' + 4 <= j + List.length rest)%nat).

(** [countByte s c]: the number of occurrences of [c] in [s]. *)
Fixpoint countByte (s : string) (c : ascii) : nat :=
  match s with
  | EmptyString => 0
  | String d s' => (if Ascii.eqb c d then 1 else 0) + countByte s' c
  end.

(** ** Values for the closed examples *)

(** A stand-in for the MAC in the closed examples: the key followed by
    the message. *)
Definition concat_mac (_ : crypto_Hash) (key msg : list byte) : list byte :=
  key ++ msg.

Definition all_available (_ : crypto_Hash) : bool := true.

(** [withIdentity c aud id iss sub]: the claim set [c] with its four
    identity claims replaced. *)
Definition withIdentity (c : StandardClaims) (aud id iss sub : string)
  : StandardClaims :=
  {| Audience := aud; ExpiresAt := ExpiresAt c; Id := id;
     IssuedAt := IssuedAt c; Issuer := iss; NotBefore := NotBefore c;
     Subject := sub |}.

(** A claim set for the closed examples. *)
Definition sampleClaims (exp iat nbf : Z) : StandardClaims :=
  {| Audience := "aud"; ExpiresAt := exp; Id := "jti"; IssuedAt := iat;
     Issuer := "svc-a"; NotBefore := nbf; Subject := "sub" |}.

(** A marshaller for the closed examples: every value is the text [{}]. *)
Definition braces_Marshal (A : Type) (_ : A) : list byte * option error :=
  ([x7b; x7d], None).

Definition sampleToken : Token StandardClaims :=
  NewWithClaims
    (HMAC_SigningMethod all_available concat_mac SigningMethodHS256)
    (sampleClaims 0 0 0).

(** * Properties *)

(** ** Bytes *)

Lemma uint8_to_Z_range (b : byte) : 0 <= uint8_to_Z b < 256.
Proof.
  unfold uint8_to_Z. pose proof (Byte.to_N_bounded b). lia.
Qed.

Lemma Z_to_uint8_to_Z (b : byte) : Z_to_uint8 (uint8_to_Z b) = b.
Proof.
  unfold Z_to_uint8. pose proof (uint8_to_Z_range b) as Hr.
  rewrite Z.mod_small by exact Hr.
  unfold uint8_to_Z. rewrite N2Z.id, Byte.of_to_N. reflexivity.
Qed.

Lemma uint8_to_Z_inj (a b : byte) : uint8_to_Z a = uint8_to_Z b -> a = b.
Proof.
  intros H. rewrite <- (Z_to_uint8_to_Z a), <- (Z_to_uint8_to_Z b), H.
  reflexivity.
Qed.

Lemma uint8_to_Z_of_Z (z : Z) : uint8_to_Z (Z_to_uint8 z) = z mod 256.
Proof.
  unfold Z_to_uint8, uint8_to_Z.
  assert (Hr : 0 <= z mod 256 < 256) by (apply Z.mod_pos_bound; lia).
  destruct (Byte.of_N (Z.to_N (z mod 256))) as [b|] eqn:E.
  - apply Byte.to_of_N in E. rewrite E. lia.
  - apply Byte.of_N_None_iff in E. lia.
Qed.

Lemma testbit_above (v n i : Z) :
  0 <= v < 2 ^ n -> n <= i -> Z.testbit v i = false.
Proof.
  intros [H0 H1] Hi.
  destruct (Z.eq_dec v 0) as [->|Hv]; [apply Z.bits_0|].
  apply Z.bits_above_log2; [exact H0|].
  assert (Z.log2 v < n) by (apply Z.log2_lt_pow2; lia). lia.
Qed.

Ltac bits_above :=
  repeat match goal with
  | H : 0 <= ?v < 2 ^ ?n |- context [Z.testbit ?v ?i] =>
      rewrite (testbit_above v n i H) by lia
  | |- context [Z.testbit ?v ?i] =>
      rewrite (Z.testbit_neg_r v i) by lia
  end.

Lemma sextets_join (v : Z) : 0 <= v < 2 ^ 24 ->
  Z.lor (Z.lor (Z.lor (Z.shiftl (Z.land (Z.shiftr v 18) 63) 18)
                      (Z.shiftl (Z.land (Z.shiftr v 12) 63) 12))
               (Z.shiftl (Z.land (Z.shiftr v 6) 63) 6))
        (Z.land (Z.shiftr v 0) 63) = v.
Proof.
  intros H. rewrite Z.shiftr_0_r. change 63 with (Z.ones 6).
  Z.bitblast. bits_above. reflexivity.
Qed.

Lemma sextet_range (v k : Z) : 0 <= Z.land (Z.shiftr v k) 63 < 64.
Proof.
  change 63 with (Z.ones 6). rewrite Z.land_ones by lia.
  apply Z.mod_pos_bound. lia.
Qed.



Ltac byte_bits :=
  rewrite ?Z.shiftr_0_r, ?Z.shiftl_0_l, ?Z.lor_0_r;
  change 256 with (2 ^ 8); rewrite <- ?Z.land_ones by lia;
  change 63 with (Z.ones 6);
  Z.bitblast; bits_above;
  repeat match goal with
  | |- context [Z.testbit ?a ?i] => destruct (Z.testbit a i)
  end; reflexivity.

Lemma join4_six (v : Z) : 0 <= v < 2 ^ 24 ->
  join4 (six v 18) (six v 12) (six v 6) (six v 0) = v.
Proof. intros H. unfold join4, six. byte_bits. Qed.

Section Sextets.
Variables x y z : Z.
Hypothesis Hx : 0 <= x < 2 ^ 8.
Hypothesis Hy : 0 <= y < 2 ^ 8.
Hypothesis Hz : 0 <= z < 2 ^ 8.

Lemma pack3_range : 0 <= pack3 x y z < 2 ^ 24.
Proof.
  assert (H : Z.land (pack3 x y z) (Z.ones 24) = pack3 x y z).
  { unfold pack3. Z.bitblast. bits_above. reflexivity. }
  rewrite Z.land_ones in H by lia. rewrite <- H.
  apply Z.mod_pos_bound. lia.
Qed.

Lemma pack3_byte0 : Z.shiftr (pack3 x y z) 16 mod 256 = x.
Proof. unfold pack3. byte_bits. Qed.

Lemma pack3_byte1 : Z.shiftr (pack3 x y z) 8 mod 256 = y.
Proof. unfold pack3. byte_bits. Qed.

Lemma pack3_byte2 : Z.shiftr (pack3 x y z) 0 mod 256 = z.
Proof. unfold pack3. byte_bits. Qed.
End Sextets.

Lemma six_low_0 (x y : Z) : six (pack3 x y 0) 0 = 0.
Proof. unfold six, pack3. byte_bits. Qed.

Lemma six_mid_0 (x : Z) : six (pack3 x 0 0) 6 = 0.
Proof. unfold six, pack3. byte_bits. Qed.

(** ** The URL alphabet and its decode map *)

Lemma decodeMap_alphabet (c : byte) :
  Byte.eqb (decoded c) xff = negb (inAlphabet c).
Proof. destruct c; vm_compute; reflexivity. Qed.

Lemma alphabet_not_special (c : byte) :
  inAlphabet c = true ->
  base64.isNewline c = false /\ c <> x3d.
Proof. destruct c; vm_compute; intros H; split; congruence. Qed.

Lemma encode_table (n : nat) : (n < 64)%nat ->
  let c := nth n (base64.encode URL) x00 in
  inAlphabet c = true /\ decoded c = Z_to_uint8 (Z.of_nat n).
Proof.
  intros Hn.
  do 64 (destruct n as [|n]; [vm_compute; split; reflexivity|]).
  lia.
Qed.

Lemma sextet_alphabet (v k : Z) : inAlphabet (base64.sextet URL v k) = true.
Proof.
  unfold base64.sextet, index.
  apply encode_table. pose proof (sextet_range v k). lia.
Qed.

Lemma sextet_decoded (v k : Z) :
  uint8_to_Z (decoded (base64.sextet URL v k)) = six v k.
Proof.
  unfold base64.sextet, index. pose proof (sextet_range v k) as Hr.
  destruct (encode_table (Z.to_nat (Z.land (Z.shiftr v k) 63))) as [_ ->]; [lia|].
  rewrite uint8_to_Z_of_Z, Z2Nat.id by lia.
  unfold six. apply Z.mod_small. lia.
Qed.

(** ** Unfolding [decodeQuantum] *)

Lemma quantumLoop_alphabet (c : byte) rest si j dbuf :
  (j < 4)%nat -> inAlphabet c = true ->
  base64.quantumLoop URL (c :: rest) si j dbuf =
  base64.quantumLoop URL rest (si + 1) (S j) (store dbuf j (decoded c)).
Proof.
  intros Hj Hc.
  assert (E : negb (Byte.eqb (decoded c) xff) = true)
    by (rewrite decodeMap_alphabet, Hc; reflexivity).
  unfold decoded in *.
  destruct j as [|[|[|[|j]]]]; try lia;
    cbn [base64.quantumLoop Nat.leb]; rewrite E; reflexivity.
Qed.

Lemma quantumLoop_full rest si dbuf :
  base64.quantumLoop URL rest si 4 dbuf = base64.assemble URL dbuf 4 rest si None.
Proof. destruct rest; reflexivity. Qed.

Lemma list_ind3 {A : Type} (P : list A -> Prop) :
  P [] -> (forall a, P [a]) -> (forall a b, P [a; b]) ->
  (forall a b c l, P l -> P (a :: b :: c :: l)) ->
  forall l, P l.
Proof.
  intros H0 H1 H2 H3.
  fix IH 1. intros [|a [|b [|c l]]]; [exact H0 | apply H1 | apply H2 | apply H3; apply IH].
Qed.


Lemma quantumLoop_pad2 si dbuf :
  base64.quantumLoop URL [x3d; x3d] si 2 dbuf =
  base64.assemble URL dbuf 2 [] (si + 1 + 1) None.
Proof. reflexivity. Qed.

Lemma quantumLoop_pad3 si dbuf :
  base64.quantumLoop URL [x3d] si 3 dbuf =
  base64.assemble URL dbuf 3 [] (si + 1) None.
Proof. reflexivity. Qed.

Lemma assemble_URL (a b c d : byte) (dlen : nat) rest si err :
  (dlen <= 4)%nat ->
  base64.assemble URL [a; b; c; d] dlen rest si err =
  let val := join4 (uint8_to_Z a) (uint8_to_Z b) (uint8_to_Z c) (uint8_to_Z d) in
  (rest, si,
   firstn (dlen - 1) [Z_to_uint8 (Z.shiftr val 16); Z_to_uint8 (Z.shiftr val 8);
                      Z_to_uint8 (Z.shiftr val 0)],
   err).
Proof.
  intros Hd. destruct dlen as [|[|[|[|[|n]]]]]; try lia; reflexivity.
Qed.

Lemma Z_to_uint8_eq (z : Z) (b : byte) :
  z mod 256 = uint8_to_Z b -> Z_to_uint8 z = b.
Proof.
  intros H. unfold Z_to_uint8. rewrite H. unfold uint8_to_Z.
  rewrite N2Z.id, Byte.of_to_N. reflexivity.
Qed.

Lemma uint8_range8 (b : byte) : 0 <= uint8_to_Z b < 2 ^ 8.
Proof. apply uint8_to_Z_range. Qed.

Lemma quantum_three (b0 b1 b2 : byte) rest si :
  base64.decodeQuantum URL (base64.Encode URL (b0 :: b1 :: b2 :: rest)) si =
  (base64.Encode URL rest, si + 4, [b0; b1; b2], None).
Proof.
  unfold base64.decodeQuantum.
  cbn [base64.Encode].
  do 4 (rewrite quantumLoop_alphabet by (try lia; apply sextet_alphabet)).
  rewrite quantumLoop_full.
  cbn [store]. rewrite assemble_URL by lia. cbv zeta.
  rewrite !sextet_decoded.
  fold (pack3 (uint8_to_Z b0) (uint8_to_Z b1) (uint8_to_Z b2)).
  rewrite join4_six by (apply pack3_range; apply uint8_range8).
  cbn [firstn Nat.sub].
  rewrite (Z_to_uint8_eq _ b0) by (apply pack3_byte0; apply uint8_range8).
  rewrite (Z_to_uint8_eq _ b1) by (apply pack3_byte1; apply uint8_range8).
  rewrite (Z_to_uint8_eq _ b2) by (apply pack3_byte2; apply uint8_range8).
  replace (si + 1 + 1 + 1 + 1) with (si + 4) by lia. reflexivity.
Qed.

Lemma pack3_y0 (x y : Z) :
  Z.lor (Z.shiftl x 16) (Z.shiftl y 8) = pack3 x y 0.
Proof. unfold pack3. rewrite Z.lor_0_r. reflexivity. Qed.

Lemma pack3_x00 (x : Z) : Z.shiftl x 16 = pack3 x 0 0.
Proof. unfold pack3. rewrite Z.shiftl_0_l, !Z.lor_0_r. reflexivity. Qed.

Lemma join4_six_two (x y : Z) :
  0 <= x < 2 ^ 8 -> 0 <= y < 2 ^ 8 ->
  let v := pack3 x y 0 in
  join4 (six v 18) (six v 12) (six v 6) 0 = v.
Proof.
  intros Hx Hy v.
  rewrite <- (join4_six v) at 4 by (apply pack3_range; lia).
  f_equal. symmetry. apply six_low_0.
Qed.

Lemma join4_six_one (x : Z) :
  0 <= x < 2 ^ 8 ->
  let v := pack3 x 0 0 in
  join4 (six v 18) (six v 12) 0 0 = v.
Proof.
  intros Hx v.
  rewrite <- (join4_six v) at 3 by (apply pack3_range; lia).
  f_equal; symmetry; [apply six_mid_0 | apply six_low_0].
Qed.

Lemma quantum_two (b0 b1 : byte) si :
  base64.decodeQuantum URL (base64.Encode URL [b0; b1]) si =
  ([], si + 4, [b0; b1], None).
Proof.
  unfold base64.decodeQuantum.
  cbn [base64.Encode]. change (base64.padding URL) with [x3d].
  do 3 (rewrite quantumLoop_alphabet by (try lia; apply sextet_alphabet)).
  rewrite quantumLoop_pad3.
  cbn [store]. rewrite assemble_URL by lia. cbv zeta.
  rewrite !sextet_decoded. change (uint8_to_Z x00) with 0.
  rewrite pack3_y0.
  rewrite join4_six_two by apply uint8_range8.
  cbn [firstn Nat.sub].
  rewrite (Z_to_uint8_eq _ b0) by (apply pack3_byte0; try apply uint8_range8; lia).
  rewrite (Z_to_uint8_eq _ b1) by (apply pack3_byte1; try apply uint8_range8; lia).
  replace (si + 1 + 1 + 1 + 1) with (si + 4) by lia. reflexivity.
Qed.

Lemma quantum_one (b0 : byte) si :
  base64.decodeQuantum URL (base64.Encode URL [b0]) si =
  ([], si + 4, [b0], None).
Proof.
  unfold base64.decodeQuantum.
  cbn [base64.Encode]. change (base64.padding URL) with [x3d]. cbn [app].
  do 2 (rewrite quantumLoop_alphabet by (try lia; apply sextet_alphabet)).
  rewrite quantumLoop_pad2.
  cbn [store]. rewrite assemble_URL by lia. cbv zeta.
  rewrite !sextet_decoded. change (uint8_to_Z x00) with 0.
  rewrite pack3_x00.
  rewrite join4_six_one by apply uint8_range8.
  cbn [firstn Nat.sub].
  rewrite (Z_to_uint8_eq _ b0) by (apply pack3_byte0; try apply uint8_range8; lia).
  replace (si + 1 + 1 + 1 + 1) with (si + 4) by lia. reflexivity.
Qed.

Lemma Encode_length (b : list byte) :
  List.length (base64.Encode URL b) = (4 * ((List.length b + 2) / 3))%nat.
Proof.
  induction b as [| a | a b | a b c l IH] using list_ind3; try reflexivity.
  cbn [base64.Encode List.length]. rewrite IH.
  replace (S (S (S (List.length l))) + 2)%nat with (1 * 3 + (List.length l + 2))%nat by lia.
  rewrite Nat.div_add_l by lia. lia.
Qed.

Lemma decodeFrom_Encode (b : list byte) : forall fuel si acc,
  (List.length b <= fuel)%nat ->
  base64.decodeFrom URL fuel (base64.Encode URL b) si acc = Some (acc ++ b, None).
Proof.
  induction b as [| b0 | b0 b1 | b0 b1 b2 l IH] using list_ind3;
    intros fuel si acc Hf.
  - destruct fuel; cbn; rewrite app_nil_r; reflexivity.
  - destruct fuel as [|fuel]; [cbn in Hf; lia|].
    pose proof (quantum_one b0 si) as Q.
    cbn [base64.Encode] in *. change (base64.padding URL) with [x3d] in *.
    cbn [app base64.decodeFrom] in *. rewrite Q.
    destruct fuel; reflexivity.
  - destruct fuel as [|fuel]; [cbn in Hf; lia|].
    pose proof (quantum_two b0 b1 si) as Q.
    cbn [base64.Encode] in *. change (base64.padding URL) with [x3d] in *.
    cbn [app base64.decodeFrom] in *. rewrite Q.
    destruct fuel; reflexivity.
  - destruct fuel as [|fuel]; [cbn in Hf; lia|].
    pose proof (quantum_three b0 b1 b2 l si) as Q.
    cbn [base64.Encode] in *.
    cbn [base64.decodeFrom]. rewrite Q.
    rewrite IH by (cbn in Hf; lia).
    rewrite <- app_assoc. reflexivity.
Qed.

Lemma Decode_Encode (b : list byte) :
  base64.Decode URL (base64.Encode URL b) = (b, None).
Proof.
  unfold base64.Decode.
  rewrite decodeFrom_Encode; [reflexivity|].
  rewrite Encode_length.
  pose proof (Nat.div_mod_eq (List.length b + 2) 3).
  pose proof (Nat.mod_upper_bound (List.length b + 2) 3). lia.
Qed.

(** ** Go strings and byte slices *)

Lemma gostring_app (a b : list byte) :
  gostring (a ++ b) = (gostring a ++ gostring b)%string.
Proof.
  induction a as [|c a IH]; [reflexivity|].
  cbn. f_equal. exact IH.
Qed.

Lemma length_gostring (l : list byte) :
  String.length (gostring l) = List.length l.
Proof.
  induction l as [|c l IH]; [reflexivity|].
  cbn. f_equal. exact IH.
Qed.

Lemma bytes_gostring (l : list byte) : bytes (gostring l) = l.
Proof. apply list_byte_of_string_of_list_byte. Qed.

Lemma gostring_bytes (s : string) : gostring (bytes s) = s.
Proof. apply string_of_list_byte_of_string. Qed.

Lemma Repeat_pad (k : nat) :
  strings.Repeat_nat "=" k = gostring (repeat x3d k).
Proof.
  induction k as [|k IH]; [reflexivity|].
  cbn. f_equal. exact IH.
Qed.

Lemma ascii_pad (c : byte) : ascii_of_byte c = "="%char -> c = x3d.
Proof.
  intros H. apply (f_equal byte_of_ascii) in H.
  rewrite byte_of_ascii_of_byte in H. exact H.
Qed.

Lemma alphabet_not_pad (c : byte) :
  inAlphabet c = true -> Ascii.eqb (ascii_of_byte c) "=" = false.
Proof.
  intros H. apply Ascii.eqb_neq. intros E. apply ascii_pad in E.
  apply alphabet_not_special in H. tauto.
Qed.

(** ** [TrimRight] strips exactly the padding *)

Lemma TrimRight_padding (k : nat) :
  strings.TrimRight (gostring (repeat x3d k)) "=" = EmptyString.
Proof.
  induction k as [|k IH]; [reflexivity|].
  cbn [repeat]. change (gostring (x3d :: repeat x3d k))
    with (String "="%char (gostring (repeat x3d k))).
  cbn [strings.TrimRight]. rewrite IH. reflexivity.
Qed.

Lemma TrimRight_alphabet (raw : list byte) (k : nat) :
  Forall (fun c => inAlphabet c = true) raw ->
  strings.TrimRight (gostring (raw ++ repeat x3d k)) "=" = gostring raw.
Proof.
  induction 1 as [|c raw Hc Hraw IH].
  - apply TrimRight_padding.
  - change (gostring ((c :: raw) ++ repeat x3d k))
      with (String (ascii_of_byte c) (gostring (raw ++ repeat x3d k))).
    cbn [strings.TrimRight]. rewrite IH.
    change (gostring (c :: raw)) with (String (ascii_of_byte c) (gostring raw)).
    destruct (gostring raw); [|reflexivity].
    cbn [strings.ContainsByte]. rewrite (alphabet_not_pad c Hc). reflexivity.
Qed.

Lemma ContainsByte_alphabet (raw : list byte) :
  Forall (fun c => inAlphabet c = true) raw ->
  strings.ContainsByte (gostring raw) "=" = false.
Proof.
  induction 1 as [|c raw Hc Hraw IH]; [reflexivity|].
  change (gostring (c :: raw)) with (String (ascii_of_byte c) (gostring raw)).
  cbn [strings.ContainsByte]. rewrite IH, Ascii.eqb_sym, (alphabet_not_pad c Hc).
  reflexivity.
Qed.

(** ** The padded and the unpadded encodings *)

Lemma sextet_RawURL (v k : Z) : base64.sextet RawURL v k = base64.sextet URL v k.
Proof. reflexivity. Qed.

Lemma Encode_padding (b : list byte) :
  base64.Encode URL b = base64.Encode RawURL b ++ repeat x3d (padCount b).
Proof.
  induction b as [| b0 | b0 b1 | b0 b1 b2 l IH] using list_ind3;
    try reflexivity.
  cbn [base64.Encode padCount]. rewrite IH, !sextet_RawURL. reflexivity.
Qed.

Lemma Encode_RawURL_alphabet (b : list byte) :
  Forall (fun c => inAlphabet c = true) (base64.Encode RawURL b).
Proof.
  induction b as [| b0 | b0 b1 | b0 b1 b2 l IH] using list_ind3;
    cbn [base64.Encode]; change (base64.padding RawURL) with (@nil byte);
    cbn [app]; rewrite ?sextet_RawURL;
    repeat (apply Forall_cons; [apply sextet_alphabet|]);
    solve [constructor | exact IH].
Qed.

(** Re-padding the unpadded text to a multiple of four restores the
    padded one. *)
Lemma repad_Encode (b : list byte) :
  let raw := base64.Encode RawURL b in
  let l := Z.of_nat (List.length raw) mod 4 in
  (if 0 <? l then raw ++ repeat x3d (Z.to_nat (4 - l)) else raw)
  = base64.Encode URL b.
Proof.
  induction b as [| b0 | b0 b1 | b0 b1 b2 l IH] using list_ind3;
    try reflexivity.
  cbv zeta in *. cbn [base64.Encode]. rewrite !sextet_RawURL.
  rewrite <- IH. cbn [List.length].
  replace (Z.of_nat (S (S (S (S (List.length (base64.Encode RawURL l)))))))
    with (Z.of_nat (List.length (base64.Encode RawURL l)) + 1 * 4) by lia.
  rewrite Z.mod_add by lia.
  destruct (0 <? _); reflexivity.
Qed.

Lemma EncodeSegment_RawURL (b : list byte) :
  EncodeSegment b = gostring (base64.Encode RawURL b).
Proof.
  unfold EncodeSegment, base64.EncodeToString. fold URL.
  rewrite Encode_padding.
  apply TrimRight_alphabet, Encode_RawURL_alphabet.
Qed.

Lemma DecodeSegment_Decode (seg : string) :
  DecodeSegment seg =
  base64.Decode URL
    (let l := Z.of_nat (List.length (bytes seg)) mod 4 in
     if 0 <? l then bytes seg ++ repeat x3d (Z.to_nat (4 - l)) else bytes seg).
Proof.
  unfold DecodeSegment, base64.DecodeString, len. fold URL. cbv zeta.
  rewrite <- (gostring_bytes seg). generalize (bytes seg) as l. intros l.
  rewrite bytes_gostring, length_gostring.
  destruct (0 <? _); [|rewrite bytes_gostring; reflexivity].
  unfold strings.Repeat. rewrite Repeat_pad, <- gostring_app, bytes_gostring.
  reflexivity.
Qed.

Lemma DecodeSegment_EncodeSegment (b : list byte) :
  DecodeSegment (EncodeSegment b) = (b, None).
Proof.
  rewrite EncodeSegment_RawURL, DecodeSegment_Decode, bytes_gostring.
  pose proof (repad_Encode b) as R. cbv zeta in *.
  rewrite R. apply Decode_Encode.
Qed.

(** C3.  The segment codec is reversible: decoding the encoding of any
    byte sequence [b] succeeds and returns exactly [b], and the encoding
    contains no padding character [=]. *)
Theorem C3_segment_codec_roundtrip (b : list byte) :
  DecodeSegment (EncodeSegment b) = (b, None) /\
  strings.ContainsByte (EncodeSegment b) "=" = false.
Proof.
  split; [apply DecodeSegment_EncodeSegment|].
  rewrite EncodeSegment_RawURL.
  apply ContainsByte_alphabet, Encode_RawURL_alphabet.
Qed.

(** Known encodings: a text, bytes that use the two URL-specific
    characters, and the usual header of an HS256 token. *)
Example EncodeSegment_hello :
  EncodeSegment (bytes "hello world") = "aGVsbG8gd29ybGQ"%string.
Proof. reflexivity. Qed.

Example EncodeSegment_url_characters :
  EncodeSegment [xfb; xff; xfe] = "-__-"%string.
Proof. reflexivity. Qed.

Example EncodeSegment_header :
  EncodeSegment [x7b; x22; x61; x6c; x67; x22; x3a; x22; x48; x53; x32; x35;
                 x36; x22; x2c; x22; x74; x79; x70; x22; x3a; x22; x4a; x57;
                 x54; x22; x7d]
  = "eyJhbGciOiJIUzI1NiIsInR5cCI6IkpXVCJ9"%string.
Proof. reflexivity. Qed.

Example DecodeSegment_hello :
  DecodeSegment "aGVsbG8gd29ybGQ" = (bytes "hello world", None).
Proof. reflexivity. Qed.

Example DecodeSegment_lone_character :
  DecodeSegment "Q" = ([], Some (CorruptInputError 1)).
Proof. reflexivity. Qed.

Example DecodeSegment_trailing_garbage :
  DecodeSegment "QUFBQQ==QUFB"
  = ([x41; x41; x41; x41], Some (CorruptInputError 8)).
Proof. reflexivity. Qed.

(** ** What [decodeQuantum] consumes and which errors it raises *)



Lemma rune_pad (c : byte) :
  (base64.rune c =? base64.padChar URL) = Byte.eqb c x3d.
Proof. destruct c; reflexivity. Qed.

Lemma quantumLoop_cons (c : byte) rest si j dbuf :
  (j < 4)%nat ->
  base64.quantumLoop URL (c :: rest) si j dbuf =
  if inAlphabet c
  then base64.quantumLoop URL rest (si + 1) (S j) (store dbuf j (decoded c))
  else if base64.isNewline c
  then base64.quantumLoop URL rest (si + 1) j dbuf
  else if negb (Byte.eqb c x3d)
  then (rest, si + 1, [], Some (CorruptInputError (si + 1 - 1)))
  else
    match j with
    | 0%nat | 1%nat => (rest, si + 1, [], Some (CorruptInputError (si + 1 - 1)))
    | 2%nat =>
        let '(rest2, si2) := base64.skipNewlines rest (si + 1) in
        match rest2 with
        | [] =>
            (rest2, si2, [],
             Some (CorruptInputError (si2 + Z.of_nat (List.length rest2))))
        | c2 :: rest3 =>
            if negb (Byte.eqb c2 x3d)
            then (rest2, si2, [], Some (CorruptInputError (si2 - 1)))
            else base64.afterPadding URL dbuf j rest3 (si2 + 1)
        end
    | _ => base64.afterPadding URL dbuf j rest (si + 1)
    end.
Proof.
  intros Hj.
  pose proof (decodeMap_alphabet c) as D. unfold decoded in *.
  destruct j as [|[|[|[|j]]]]; try lia;
    cbn [base64.quantumLoop Nat.leb]; rewrite D, negb_involutive, rune_pad;
    destruct (inAlphabet c); try reflexivity.
  destruct (base64.isNewline c); try reflexivity.
  destruct (negb (Byte.eqb c x3d)); try reflexivity.
  destruct (base64.skipNewlines rest (si + 1)) as [rest2 si2].
  destruct rest2 as [|c2 rest3]; try reflexivity.
  rewrite rune_pad. reflexivity.
Qed.


Lemma consumed_app (pre rest : list byte) (q : base64.quantum) :
  Forall (fun c => accepted c = true) pre ->
  consumed rest q -> consumed (pre ++ rest) q.
Proof.
  destruct q as [[[rest' si'] out] err].
  intros Hpre [Hc [p [-> Hp]]]. split; [exact Hc|].
  exists (pre ++ p). split; [apply app_assoc|].
  intros E. apply Forall_app. split; [exact Hpre | exact (Hp E)].
Qed.

Lemma consumed_cons (c : byte) (rest : list byte) (q : base64.quantum) :
  accepted c = true -> consumed rest q -> consumed (c :: rest) q.
Proof.
  intros Hc H. apply (consumed_app [c]); [|exact H].
  constructor; [exact Hc | constructor].
Qed.

Lemma consumed_error (pre rest' : list byte) si out off :
  consumed (pre ++ rest') (rest', si, out, Some (CorruptInputError off)).
Proof.
  split; [exact I|]. exists pre. split; [reflexivity | discriminate].
Qed.

Lemma skipNewlines_spec (rest : list byte) : forall si,
  exists pre, rest = pre ++ fst (base64.skipNewlines rest si) /\
              Forall (fun c => accepted c = true) pre.
Proof.
  induction rest as [|c rest IH]; intros si.
  - exists []. split; [reflexivity | constructor].
  - cbn [base64.skipNewlines]. destruct (base64.isNewline c) eqn:N.
    + destruct (IH (si + 1)) as [pre [E F]].
      exists (c :: pre). split; [cbn; f_equal; exact E|].
      constructor; [|exact F].
      unfold accepted. rewrite N. apply orb_true_iff. left.
      apply orb_true_r.
    + exists []. split; [reflexivity | constructor].
Qed.

Lemma assemble_URL_shape dbuf dlen rest si err :
  exists out, base64.assemble URL dbuf dlen rest si err = (rest, si, out, err).
Proof.
  destruct dlen as [|[|[|[|[|n]]]]]; eexists; reflexivity.
Qed.

Lemma afterPadding_spec dbuf j rest si :
  consumed rest (base64.afterPadding URL dbuf j rest si).
Proof.
  unfold base64.afterPadding.
  destruct (skipNewlines_spec rest si) as [pre [E F]].
  destruct (base64.skipNewlines rest si) as [rest1 si1]. cbn [fst] in E.
  match goal with
  | |- context [base64.assemble URL ?d ?l ?r ?s ?e] =>
      destruct (assemble_URL_shape d l r s e) as [out ->]
  end.
  split.
  - destruct rest1; exact I.
  - exists pre. split; [exact E | intros _; exact F].
Qed.

Lemma quantumLoop_done rest si j dbuf :
  (4 <= j)%nat ->
  base64.quantumLoop URL rest si j dbuf = base64.assemble URL dbuf 4 rest si None.
Proof.
  intros Hj. destruct j as [|[|[|[|j]]]]; try lia. destruct rest; reflexivity.
Qed.

Lemma accepted_alphabet c : inAlphabet c = true -> accepted c = true.
Proof. intros H. unfold accepted. rewrite H. reflexivity. Qed.

Lemma accepted_newline c : base64.isNewline c = true -> accepted c = true.
Proof. intros H. unfold accepted. rewrite H. apply orb_true_iff. left. apply orb_true_r. Qed.

Lemma accepted_pad c : Byte.eqb c x3d = true -> accepted c = true.
Proof. intros H. unfold accepted. rewrite H. apply orb_true_r. Qed.

Lemma quantumLoop_spec (rest : list byte) : forall si j dbuf,
  consumed rest (base64.quantumLoop URL rest si j dbuf).
Proof.
  induction rest as [|c rest IH]; intros si j dbuf.
  - destruct j as [|[|[|[|j]]]]; cbn;
      (split; [exact I | exists []; split; [reflexivity | intros _; constructor]]).
  - destruct (le_lt_dec 4 j) as [Hj|Hj].
    + rewrite quantumLoop_done by exact Hj.
      destruct (assemble_URL_shape dbuf 4 (c :: rest) si None) as [out ->].
      split; [exact I | exists []; split; [reflexivity | intros _; constructor]].
    + rewrite quantumLoop_cons by exact Hj.
      destruct (inAlphabet c) eqn:A.
      { apply consumed_cons; [apply accepted_alphabet, A | apply IH]. }
      destruct (base64.isNewline c) eqn:N.
      { apply consumed_cons; [apply accepted_newline, N | apply IH]. }
      destruct (Byte.eqb c x3d) eqn:P; cbn [negb].
      2:{ apply (consumed_error [c]). }
      destruct j as [|[|[|j]]].
      * apply (consumed_error [c]).
      * apply (consumed_error [c]).
      * destruct (skipNewlines_spec rest (si + 1)) as [pre [E F]].
        destruct (base64.skipNewlines rest (si + 1)) as [rest2 si2].
        cbn [fst] in E. rewrite E.
        destruct rest2 as [|c2 rest3].
        -- apply (consumed_error (c :: pre)).
        -- destruct (Byte.eqb c2 x3d) eqn:P2; cbn [negb].
           ++ apply consumed_cons; [apply accepted_pad, P|].
              apply consumed_app; [exact F|].
              apply consumed_cons; [apply accepted_pad, P2|].
              apply afterPadding_spec.
           ++ apply (consumed_error (c :: pre)).
      * apply consumed_cons; [apply accepted_pad, P | apply afterPadding_spec].
Qed.

Lemma quantumLoop_tail (c : byte) (rest : list byte) si j dbuf :
  (j < 4)%nat ->
  consumed rest (base64.quantumLoop URL (c :: rest) si j dbuf).
Proof.
  intros Hj. rewrite quantumLoop_cons by exact Hj.
  destruct (inAlphabet c); [apply quantumLoop_spec|].
  destruct (base64.isNewline c); [apply quantumLoop_spec|].
  destruct (Byte.eqb c x3d); cbn [negb]; [|apply (consumed_error [])].
  destruct j as [|[|[|j]]]; try apply (consumed_error []).
  - destruct (skipNewlines_spec rest (si + 1)) as [pre [E F]].
    destruct (base64.skipNewlines rest (si + 1)) as [rest2 si2].
    cbn [fst] in E. rewrite E.
    destruct rest2 as [|c2 rest3]; [apply consumed_error|].
    destruct (Byte.eqb c2 x3d) eqn:P2; cbn [negb]; [|apply consumed_error].
    apply consumed_app; [exact F|].
    apply consumed_cons; [apply accepted_pad, P2 | apply afterPadding_spec].
  - apply afterPadding_spec.
Qed.

Lemma decodeFrom_spec (fuel : nat) : forall rest si acc,
  (List.length rest <= fuel)%nat ->
  exists out err,
    base64.decodeFrom URL fuel rest si acc = Some (out, err) /\
    isCorrupt err /\
    (err = None -> Forall (fun c => accepted c = true) rest).
Proof.
  induction fuel as [|fuel IH]; intros rest si acc Hf.
  - destruct rest; [|cbn in Hf; lia].
    exists acc, None. repeat split. constructor.
  - destruct rest as [|c rest].
    + exists acc, None. repeat split. constructor.
    + cbn [base64.decodeFrom]. unfold base64.decodeQuantum.
      pose proof (quantumLoop_tail c rest si 0 [x00; x00; x00; x00]) as T.
      pose proof (quantumLoop_spec (c :: rest) si 0 [x00; x00; x00; x00]) as S.
      destruct (base64.quantumLoop URL (c :: rest) si 0 [x00; x00; x00; x00])
        as [[[rest' si'] out] err].
      destruct T as [_ [pre [E _]]]; [lia|].
      destruct S as [Hc [pre' [E' F']]].
      destruct err as [e|].
      * exists (acc ++ out), (Some e). repeat split; [exact Hc | discriminate].
      * destruct (IH rest' si' (acc ++ out)) as [o [err [D [Hk Hn]]]].
        { cbn in Hf. rewrite E, length_app in Hf. lia. }
        exists o, err. split; [exact D|]. split; [exact Hk|].
        intros N. rewrite E'. apply Forall_app. split; [apply F'; reflexivity | apply Hn, N].
Qed.

Lemma Decode_spec (src : list byte) :
  let '(_, err) := base64.Decode URL src in
  isCorrupt err /\ (err = None -> Forall (fun c => accepted c = true) src).
Proof.
  unfold base64.Decode.
  destruct (decodeFrom_spec (List.length src) src 0 [] (le_n _))
    as [out [err [-> H]]].
  exact H.
Qed.

(** The fuel that [Decode] passes never runs out. *)
Lemma Decode_fuel (src : list byte) :
  base64.decodeFrom URL (List.length src) src 0 [] <> None.
Proof.
  destruct (decodeFrom_spec (List.length src) src 0 [] (le_n _))
    as [out [err [E _]]].
  rewrite E. discriminate.
Qed.


Lemma DecodeSegment_repad (seg : string) :
  DecodeSegment seg = base64.Decode URL (repad (bytes seg)).
Proof. apply DecodeSegment_Decode. Qed.

Lemma repad_incl (raw : list byte) (c : byte) : In c raw -> In c (repad raw).
Proof.
  intros H. unfold repad. destruct (0 <? _); [apply in_or_app; left|]; exact H.
Qed.

Lemma DecodeSegment_error_kind (seg : string) (e : error) :
  snd (DecodeSegment seg) = Some e -> exists off, e = CorruptInputError off.
Proof.
  rewrite DecodeSegment_repad.
  pose proof (Decode_spec (repad (bytes seg))) as H.
  destruct (base64.Decode URL (repad (bytes seg))) as [out err].
  cbn [snd]. intros ->. destruct H as [H _].
  destruct e; try contradiction. eexists; reflexivity.
Qed.

Lemma DecodeSegment_rejects (seg : string) (c : byte) :
  In c (bytes seg) -> accepted c = false -> snd (DecodeSegment seg) <> None.
Proof.
  intros Hin Hc. rewrite DecodeSegment_repad.
  pose proof (Decode_spec (repad (bytes seg))) as H.
  destruct (base64.Decode URL (repad (bytes seg))) as [out err].
  cbn [snd]. intros ->. destruct H as [_ H].
  specialize (H eq_refl). rewrite Forall_forall in H.
  specialize (H c (repad_incl _ _ Hin)). congruence.
Qed.

Lemma list_ind4 {A : Type} (P : list A -> Prop) :
  P [] -> (forall a, P [a]) -> (forall a b, P [a; b]) ->
  (forall a b c, P [a; b; c]) ->
  (forall a b c d l, P l -> P (a :: b :: c :: d :: l)) ->
  forall l, P l.
Proof.
  intros H0 H1 H2 H3 H4.
  fix IH 1. intros [|a [|b [|c [|d l]]]];
    [exact H0 | apply H1 | apply H2 | apply H3 | apply H4; apply IH].
Qed.

Lemma repad_four (a b c d : byte) (l : list byte) :
  repad (a :: b :: c :: d :: l) = a :: b :: c :: d :: repad l.
Proof.
  unfold repad. cbn [List.length].
  replace (Z.of_nat (S (S (S (S (List.length l))))))
    with (Z.of_nat (List.length l) + 1 * 4) by lia.
  rewrite Z.mod_add by lia.
  destruct (0 <? _); reflexivity.
Qed.

Lemma mod4_four (n : nat) :
  Z.of_nat (S (S (S (S n)))) mod 4 = Z.of_nat n mod 4.
Proof.
  replace (Z.of_nat (S (S (S (S n))))) with (Z.of_nat n + 1 * 4) by lia.
  apply Z.mod_add. lia.
Qed.

Lemma quantumLoop_lone_pad si dbuf :
  snd (base64.quantumLoop URL [x3d; x3d; x3d] si 1 dbuf) =
  Some (CorruptInputError (si + 1 - 1)).
Proof. reflexivity. Qed.

(** Text over the alphabet alone decodes without error exactly when its
    length is not 1 modulo 4. *)
Lemma decodeFrom_alphabet (raw : list byte) :
  Forall (fun c => inAlphabet c = true) raw ->
  forall fuel si acc, (List.length raw <= fuel)%nat ->
  exists out err,
    base64.decodeFrom URL fuel (repad raw) si acc = Some (out, err) /\
    (err = None <-> Z.of_nat (List.length raw) mod 4 <> 1).
Proof.
  induction raw as [| a | a b | a b c | a b c d l IH] using list_ind4;
    intros Hall fuel si acc Hf.
  - exists acc, None. split; [destruct fuel; reflexivity|].
    split; [intros _; cbn; lia | reflexivity].
  - destruct fuel as [|fuel]; [cbn in Hf; lia|].
    inversion Hall as [|? ? Ha _]; subst.
    change (repad [a]) with [a; x3d; x3d; x3d].
    cbn [base64.decodeFrom]. unfold base64.decodeQuantum.
    rewrite quantumLoop_alphabet by (try lia; assumption).
    pose proof (quantumLoop_lone_pad (si + 1) (store [x00; x00; x00; x00] 0 (decoded a))) as Q.
    destruct (base64.quantumLoop URL [x3d; x3d; x3d] (si + 1) 1 _)
      as [[[rest' si'] out] err].
    cbn [snd] in Q. subst err.
    eexists _, _. split; [reflexivity|].
    split; [discriminate | intros H; exfalso; apply H; reflexivity].
  - destruct fuel as [|fuel]; [cbn in Hf; lia|].
    inversion Hall as [|? ? Ha Hall1]; subst.
    inversion Hall1 as [|? ? Hb _]; subst.
    change (repad [a; b]) with [a; b; x3d; x3d].
    cbn [base64.decodeFrom]. unfold base64.decodeQuantum.
    do 2 (rewrite quantumLoop_alphabet by (try lia; assumption)).
    rewrite quantumLoop_pad2.
    match goal with
    | |- context [base64.assemble URL ?d ?l ?r ?s ?e] =>
        destruct (assemble_URL_shape d l r s e) as [out ->]
    end.
    exists (acc ++ out), None. split; [destruct fuel; reflexivity|].
    split; [intros _; cbn; lia | reflexivity].
  - destruct fuel as [|fuel]; [cbn in Hf; lia|].
    inversion Hall as [|? ? Ha Hall1]; subst.
    inversion Hall1 as [|? ? Hb Hall2]; subst.
    inversion Hall2 as [|? ? Hc _]; subst.
    change (repad [a; b; c]) with [a; b; c; x3d].
    cbn [base64.decodeFrom]. unfold base64.decodeQuantum.
    do 3 (rewrite quantumLoop_alphabet by (try lia; assumption)).
    rewrite quantumLoop_pad3.
    match goal with
    | |- context [base64.assemble URL ?d ?l ?r ?s ?e] =>
        destruct (assemble_URL_shape d l r s e) as [out ->]
    end.
    exists (acc ++ out), None. split; [destruct fuel; reflexivity|].
    split; [intros _; cbn; lia | reflexivity].
  - destruct fuel as [|fuel]; [cbn in Hf; lia|].
    inversion Hall as [|? ? Ha Hall1]; subst.
    inversion Hall1 as [|? ? Hb Hall2]; subst.
    inversion Hall2 as [|? ? Hc Hall3]; subst.
    inversion Hall3 as [|? ? Hd Hall4]; subst.
    rewrite repad_four.
    cbn [base64.decodeFrom]. unfold base64.decodeQuantum.
    do 4 (rewrite quantumLoop_alphabet by (try lia; assumption)).
    rewrite quantumLoop_full.
    match goal with
    | |- context [base64.assemble URL ?d ?l ?r ?s ?e] =>
        destruct (assemble_URL_shape d l r s e) as [out ->]
    end.
    destruct (IH Hall4 fuel (si + 1 + 1 + 1 + 1) (acc ++ out)) as [o [err [D E]]].
    { cbn in Hf. lia. }
    exists o, err. split; [exact D|].
    cbn [List.length]. rewrite mod4_four. exact E.
Qed.

Lemma DecodeSegment_alphabet (seg : string) :
  Forall (fun c => inAlphabet c = true) (bytes seg) ->
  snd (DecodeSegment seg) = None <-> len seg mod 4 <> 1.
Proof.
  intros Hall. rewrite DecodeSegment_repad. unfold base64.Decode.
  assert (L : len seg = Z.of_nat (List.length (bytes seg))).
  { unfold len. rewrite <- (gostring_bytes seg) at 1.
    rewrite length_gostring. reflexivity. }
  rewrite L.
  destruct (decodeFrom_alphabet (bytes seg) Hall
              (List.length (repad (bytes seg))) 0 []) as [out [err [-> E]]].
  - unfold repad. destruct (0 <? _); [rewrite length_app|]; lia.
  - exact E.
Qed.

(** ** [subtle.ConstantTimeCompare] decides equality of byte slices *)

Lemma range_of_land (v n : Z) :
  0 <= n -> Z.land v (Z.ones n) = v -> 0 <= v < 2 ^ n.
Proof.
  intros Hn H. rewrite Z.land_ones in H by exact Hn. rewrite <- H.
  apply Z.mod_pos_bound. lia.
Qed.

Lemma lor_lxor_range (v a b : Z) :
  0 <= v < 2 ^ 8 -> 0 <= a < 2 ^ 8 -> 0 <= b < 2 ^ 8 ->
  0 <= Z.lor v (Z.lxor a b) < 2 ^ 8.
Proof.
  intros Hv Ha Hb. apply range_of_land; [lia|].
  Z.bitblast. bits_above. reflexivity.
Qed.

Lemma xor_fold_spec (x : list byte) : forall (y : list byte) (v : Z),
  List.length x = List.length y -> 0 <= v < 2 ^ 8 ->
  0 <= subtle.xor_fold x y v < 2 ^ 8 /\
  (subtle.xor_fold x y v = 0 <-> v = 0 /\ x = y).
Proof.
  induction x as [|a x IH]; intros [|b y] v Hl Hv; try discriminate.
  - cbn. split; [exact Hv|]. tauto.
  - cbn [subtle.xor_fold].
    destruct (IH y (Z.lor v (Z.lxor (uint8_to_Z a) (uint8_to_Z b)))) as [R E].
    + cbn in Hl. lia.
    + apply lor_lxor_range; [exact Hv | apply uint8_range8 | apply uint8_range8].
    + split; [exact R|]. rewrite E, Z.lor_eq_0_iff, Z.lxor_eq_0_iff.
      split.
      * intros [[Hv0 Hab] Hxy]. apply uint8_to_Z_inj in Hab. subst. tauto.
      * intros [Hv0 Hxy]. inversion Hxy. tauto.
Qed.

Lemma ConstantTimeByteEq_zero (v : Z) : 0 <= v < 2 ^ 8 ->
  subtle.ConstantTimeByteEq (Z_to_uint8 v) x00 = if v =? 0 then 1 else 0.
Proof.
  intros Hv. unfold subtle.ConstantTimeByteEq.
  rewrite uint8_to_Z_of_Z. change (uint8_to_Z x00) with 0.
  rewrite Z.lxor_0_r. change (2 ^ 8) with 256 in Hv.
  rewrite (Z.mod_small v 256) by lia.
  destruct (Z.eqb_spec v 0) as [->|Hne]; [reflexivity|].
  rewrite Z.mod_small by lia.
  rewrite Z.shiftr_div_pow2 by lia. apply Z.div_small. lia.
Qed.

Lemma ConstantTimeCompare_spec (x y : list byte) :
  subtle.ConstantTimeCompare x y = if list_eq_dec Byte.byte_eq_dec x y then 1 else 0.
Proof.
  unfold subtle.ConstantTimeCompare.
  destruct (Nat.eqb_spec (List.length x) (List.length y)) as [Hl|Hl]; cbn [negb].
  - destruct (xor_fold_spec x y 0 Hl) as [R E]; [lia|].
    rewrite ConstantTimeByteEq_zero by exact R.
    destruct (list_eq_dec Byte.byte_eq_dec x y) as [Hxy|Hxy];
      destruct (Z.eqb_spec (subtle.xor_fold x y 0) 0) as [H0|H0]; try reflexivity.
    + exfalso. apply H0, E. tauto.
    + exfalso. apply Hxy, E, H0.
  - destruct (list_eq_dec Byte.byte_eq_dec x y) as [Hxy|Hxy]; [|reflexivity].
    subst. contradiction.
Qed.

Lemma hmac_Equal_true (x y : list byte) : hmac.Equal x y = true <-> x = y.
Proof.
  unfold hmac.Equal. rewrite ConstantTimeCompare_spec.
  destruct (list_eq_dec Byte.byte_eq_dec x y); split; intros; try tauto; discriminate.
Qed.

Lemma hmac_Equal_refl (x : list byte) : hmac.Equal x x = true.
Proof. apply hmac_Equal_true. reflexivity. Qed.

(** ** The HMAC signing method *)

Section HMACProperties.
Variable Available : crypto_Hash -> bool.
Variable hmac_Sum : crypto_Hash -> list byte -> list byte -> list byte.

Lemma Verify_invalid_key m s sig key :
  (forall b, key <> IfaceBytes b) -> HMAC_Verify Available hmac_Sum m s sig key = Some ErrInvalidKeyType.
Proof.
  intros H. destruct key as [|b| |]; try reflexivity.
  exfalso. exact (H b eq_refl).
Qed.

Lemma Sign_invalid_key m s key :
  (forall b, key <> IfaceBytes b) ->
  HMAC_Sign Available hmac_Sum m s key = (EmptyString, Some ErrInvalidKeyType).
Proof.
  intros H. destruct key as [|b| |]; try reflexivity.
  exfalso. exact (H b eq_refl).
Qed.

(** [Verify] with a byte-slice key and an available hash, by the
    outcome of decoding the signature text. *)
Lemma Verify_bytes m s sig k :
  Available (Hash m) = true ->
  HMAC_Verify Available hmac_Sum m s sig (IfaceBytes k) =
  match DecodeSegment sig with
  | (_, Some e) => Some e
  | (d, None) =>
      if list_eq_dec Byte.byte_eq_dec d (hmac_Sum (Hash m) k (bytes s))
      then None else Some ErrSignatureInvalid
  end.
Proof.
  intros Ha. unfold HMAC_Verify.
  destruct (DecodeSegment sig) as [d [e|]]; [reflexivity|].
  rewrite Ha. cbn [negb].
  destruct (list_eq_dec Byte.byte_eq_dec d _) as [E|E].
  - rewrite (proj2 (hmac_Equal_true _ _) E). reflexivity.
  - destruct (hmac.Equal d _) eqn:Q; [|reflexivity].
    apply hmac_Equal_true in Q. contradiction.
Qed.

(** C1 (as amended).  With a byte-slice key and the hash available,
    [Sign] succeeds with the encoded MAC and [Verify] accepts that
    signature.  [Verify] succeeds exactly when the signature text
    decodes to the recomputed MAC; when the text decodes to other bytes
    it fails with [ErrSignatureInvalid], and when the text does not
    decode it fails with the decoder's error. *)
Theorem C1_hmac_sign_verify (m : SigningMethodHMAC) (s : string) (k : list byte) :
  Available (Hash m) = true ->
  let mac := hmac_Sum (Hash m) k (bytes s) in
  HMAC_Sign Available hmac_Sum m s (IfaceBytes k) = (EncodeSegment mac, None) /\
  HMAC_Verify Available hmac_Sum m s (fst (HMAC_Sign Available hmac_Sum m s (IfaceBytes k))) (IfaceBytes k) = None /\
  (forall sig, HMAC_Verify Available hmac_Sum m s sig (IfaceBytes k) = None <->
               DecodeSegment sig = (mac, None)) /\
  (forall sig d, DecodeSegment sig = (d, None) -> d <> mac ->
                 HMAC_Verify Available hmac_Sum m s sig (IfaceBytes k) = Some ErrSignatureInvalid) /\
  (forall sig d e, DecodeSegment sig = (d, Some e) ->
                   HMAC_Verify Available hmac_Sum m s sig (IfaceBytes k) = Some e).
Proof.
  intros Ha mac.
  assert (S : HMAC_Sign Available hmac_Sum m s (IfaceBytes k) = (EncodeSegment mac, None)).
  { unfold HMAC_Sign. rewrite Ha. reflexivity. }
  split; [exact S|]. rewrite S. cbn [fst].
  repeat split.
  - rewrite Verify_bytes by exact Ha.
    rewrite DecodeSegment_EncodeSegment.
    fold mac. destruct (list_eq_dec Byte.byte_eq_dec mac mac); congruence.
  - rewrite Verify_bytes by exact Ha. fold mac.
    destruct (DecodeSegment sig) as [d [e|]]; [discriminate|].
    destruct (list_eq_dec Byte.byte_eq_dec d mac); congruence.
  - intros D. rewrite Verify_bytes by exact Ha. rewrite D. fold mac.
    destruct (list_eq_dec Byte.byte_eq_dec mac mac); congruence.
  - intros sig d D N. rewrite Verify_bytes by exact Ha. rewrite D. fold mac.
    destruct (list_eq_dec Byte.byte_eq_dec d mac); congruence.
  - intros sig d e D. rewrite Verify_bytes by exact Ha. rewrite D. reflexivity.
Qed.
End HMACProperties.

Section HMACKeyType.
Variable Available : crypto_Hash -> bool.
Variable hmac_Sum : crypto_Hash -> list byte -> list byte -> list byte.

(** C5.  For every key that is not a byte slice, [Sign] returns the
    empty string with [ErrInvalidKeyType] and [Verify] returns
    [ErrInvalidKeyType], whatever the method, the signing input and the
    signature text. *)
Theorem C5_invalid_key_type (m : SigningMethodHMAC) (s sig : string) (key : iface) :
  (forall b, key <> IfaceBytes b) ->
  HMAC_Sign Available hmac_Sum m s key = (EmptyString, Some ErrInvalidKeyType) /\
  HMAC_Verify Available hmac_Sum m s sig key = Some ErrInvalidKeyType.
Proof.
  intros H. split; [apply Sign_invalid_key | apply Verify_invalid_key]; exact H.
Qed.

(** C9.  In [Verify] the key-type check comes before the decoding of
    the signature: for a key that is not a byte slice and a signature
    text that does not decode, [Verify] returns [ErrInvalidKeyType] and
    not the decoder's error, which is what it returns on the same text
    for any byte-slice key. *)
Theorem C9_key_type_before_decoding
    (m : SigningMethodHMAC) (s sig : string) (key : iface) (e : error) :
  (forall b, key <> IfaceBytes b) ->
  snd (DecodeSegment sig) = Some e ->
  HMAC_Verify Available hmac_Sum m s sig key = Some ErrInvalidKeyType /\
  HMAC_Verify Available hmac_Sum m s sig key <> Some e /\
  (forall k, HMAC_Verify Available hmac_Sum m s sig (IfaceBytes k) = Some e).
Proof.
  intros H D.
  rewrite Verify_invalid_key by exact H.
  split; [reflexivity|]. split.
  - destruct (DecodeSegment_error_kind sig e D) as [off ->]. discriminate.
  - intros k. unfold HMAC_Verify.
    destruct (DecodeSegment sig) as [d err]. cbn [snd] in D. subst err.
    reflexivity.
Qed.
End HMACKeyType.

Lemma C1_hmac_sign_verify_witness :
  all_available (Hash SigningMethodHS256) = true /\
  HMAC_Verify all_available concat_mac SigningMethodHS256 "a.b"
    (fst (HMAC_Sign all_available concat_mac SigningMethodHS256 "a.b"
            (IfaceBytes [x6b])))
    (IfaceBytes [x6b]) = None.
Proof.
  split; [reflexivity|].
  exact (proj1 (proj2 (C1_hmac_sign_verify all_available concat_mac
                         SigningMethodHS256 "a.b" [x6b] eq_refl))).
Defined.

(** The signature text [!] does not decode: [Verify] fails, yet not with
    [ErrSignatureInvalid]. *)
Lemma C1_counterexample :
  HMAC_Verify all_available concat_mac SigningMethodHS256 "a.b" "!"
    (IfaceBytes [x6b]) = Some (CorruptInputError 0) /\
  HMAC_Verify all_available concat_mac SigningMethodHS256 "a.b" "!"
    (IfaceBytes [x6b]) <> Some ErrSignatureInvalid.
Proof. split; [reflexivity | discriminate]. Qed.

Lemma C5_invalid_key_type_witness :
  (forall b, IfaceString "secret" <> IfaceBytes b) /\
  HMAC_Sign all_available concat_mac SigningMethodHS256 "a.b" (IfaceString "secret")
    = (EmptyString, Some ErrInvalidKeyType) /\
  HMAC_Verify all_available concat_mac SigningMethodHS256 "a.b" "c2ln"
    (IfaceString "secret") = Some ErrInvalidKeyType.
Proof.
  split; [discriminate|].
  apply (C5_invalid_key_type all_available concat_mac SigningMethodHS256
           "a.b" "c2ln" (IfaceString "secret")).
  discriminate.
Defined.

Lemma C9_key_type_before_decoding_witness :
  (forall b, IfaceNil <> IfaceBytes b) /\
  snd (DecodeSegment "!") = Some (CorruptInputError 0) /\
  HMAC_Verify all_available concat_mac SigningMethodHS512 "a.b" "!" IfaceNil
    = Some ErrInvalidKeyType.
Proof.
  split; [discriminate|]. split; [reflexivity|].
  apply (C9_key_type_before_decoding all_available concat_mac SigningMethodHS512
           "a.b" "!" IfaceNil (CorruptInputError 0)); [discriminate | reflexivity].
Defined.

(** ** [DecodeSegment] *)

Lemma repad_length (raw : list byte) :
  Z.of_nat (List.length (repad raw)) mod 4 = 0.
Proof.
  unfold repad.
  pose proof (Z.mod_pos_bound (Z.of_nat (List.length raw)) 4 ltac:(lia)) as B.
  pose proof (Z.div_mod (Z.of_nat (List.length raw)) 4 ltac:(lia)) as D.
  destruct (Z.ltb_spec 0 (Z.of_nat (List.length raw) mod 4)) as [H|H].
  - rewrite length_app, repeat_length, Nat2Z.inj_add, Z2Nat.id by lia.
    replace (Z.of_nat (List.length raw) + (4 - Z.of_nat (List.length raw) mod 4))
      with ((Z.of_nat (List.length raw) / 4 + 1) * 4) by lia.
    apply Z.mod_mul. lia.
  - lia.
Qed.

Lemma repad_suffix (raw : list byte) :
  exists k, (k < 4)%nat /\ repad raw = raw ++ repeat x3d k.
Proof.
  unfold repad.
  pose proof (Z.mod_pos_bound (Z.of_nat (List.length raw)) 4 ltac:(lia)) as B.
  destruct (Z.ltb_spec 0 (Z.of_nat (List.length raw) mod 4)) as [H|H].
  - eexists. split; [|reflexivity]. lia.
  - exists 0%nat. split; [lia|]. cbn. rewrite app_nil_r. reflexivity.
Qed.

Lemma not_accepted (c : byte) :
  inAlphabet c = false -> c <> x3d -> c <> x0a -> c <> x0d -> accepted c = false.
Proof.
  intros A P N R. unfold accepted, base64.isNewline. rewrite A.
  destruct (Byte.eqb c x0a) eqn:E1; [apply Byte.byte_dec_bl in E1; contradiction|].
  destruct (Byte.eqb c x0d) eqn:E2; [apply Byte.byte_dec_bl in E2; contradiction|].
  destruct (Byte.eqb c x3d) eqn:E3; [apply Byte.byte_dec_bl in E3; contradiction|].
  reflexivity.
Qed.

(** C6 (as amended).  [DecodeSegment] decodes the text re-padded with [=]
    to a multiple of four characters, and its only errors are
    [CorruptInputError]s.  It fails for every text that contains a
    character other than the 64 alphabet characters, [=], line feed and
    carriage return (the decoder skips the latter two), and, for a text
    made of alphabet characters only, it fails exactly when the length of
    the text is 1 modulo 4. *)
Theorem C6_DecodeSegment_errors (seg : string) :
  (DecodeSegment seg = base64.Decode URL (repad (bytes seg)) /\
   Z.of_nat (List.length (repad (bytes seg))) mod 4 = 0 /\
   exists k, (k < 4)%nat /\ repad (bytes seg) = bytes seg ++ repeat x3d k) /\
  (forall e, snd (DecodeSegment seg) = Some e ->
             exists off, e = CorruptInputError off) /\
  (forall c, In c (bytes seg) ->
             inAlphabet c = false -> c <> x3d -> c <> x0a -> c <> x0d ->
             snd (DecodeSegment seg) <> None) /\
  (Forall (fun c => inAlphabet c = true) (bytes seg) ->
   (snd (DecodeSegment seg) = None <-> len seg mod 4 <> 1)).
Proof.
  repeat split.
  - apply DecodeSegment_repad.
  - apply repad_length.
  - apply repad_suffix.
  - apply DecodeSegment_error_kind.
  - intros c Hin A P N R.
    apply (DecodeSegment_rejects seg c Hin).
    apply not_accepted; assumption.
  - apply DecodeSegment_alphabet; assumption.
  - apply DecodeSegment_alphabet; assumption.
Qed.

Lemma C6_DecodeSegment_errors_witness :
  In x21 (bytes "QU!B") /\
  snd (DecodeSegment "QU!B") <> None /\
  Forall (fun c => inAlphabet c = true) (bytes "QUFBQ") /\
  snd (DecodeSegment "QUFBQ") <> None.
Proof.
  split; [cbn; tauto|]. split.
  - apply (proj1 (proj2 (proj2 (C6_DecodeSegment_errors "QU!B"))) x21);
      [cbn; tauto | reflexivity | discriminate | discriminate | discriminate].
  - assert (F : Forall (fun c => inAlphabet c = true) (bytes "QUFBQ"))
      by (repeat constructor).
    split; [exact F|].
    intros E.
    apply (proj1 (proj2 (proj2 (proj2 (C6_DecodeSegment_errors "QUFBQ"))) F)) in E.
    apply E. reflexivity.
Defined.

(** A text of four alphabet characters and four line feeds holds
    characters outside the alphabet, yet it decodes. *)
Lemma C6_counterexample :
  let seg := gostring [x51; x55; x46; x42; x0a; x0a; x0a; x0a] in
  In x0a (bytes seg) /\ inAlphabet x0a = false /\
  DecodeSegment seg = ([x41; x41; x41], None).
Proof. cbv zeta. split; [cbn; tauto|]. split; reflexivity. Qed.

(** ** Validation of the standard claims *)

Lemma verifyExp_unset now required : verifyExp 0 now required = negb required.
Proof. reflexivity. Qed.




Section ClaimsProperties.
Variable TimeFunc : unit -> time.Time.

(** The accumulated error, by the outcome of the three checks. *)
Lemma Valid_vErr_cases (c : StandardClaims) :
  let now := time.Unix_of (TimeFunc tt) in
  let fe := negb (VerifyExpiresAt c now false) in
  let fi := negb (VerifyIssuedAt c now false) in
  let fn := negb (VerifyNotBefore c now false) in
  StandardClaims_Valid_vErr TimeFunc c =
  {| Inner := if fn then Some notValidYetCause
              else if fi then Some issuedAtCause
              else if fe then Some (expiredCause now (ExpiresAt c))
              else None;
     Errors := (if fe then 16 else 0) + (if fi then 32 else 0)
               + (if fn then 128 else 0);
     text := "" |}.
Proof.
  cbv zeta. unfold StandardClaims_Valid_vErr.
  destruct (VerifyExpiresAt c _ false), (VerifyIssuedAt c _ false),
    (VerifyNotBefore c _ false); reflexivity.
Qed.
End ClaimsProperties.

Section ClaimsTheorems.
Variable TimeFunc : unit -> time.Time.

Lemma Valid_nil_iff (c : StandardClaims) :
  StandardClaims_Valid TimeFunc c = None <->
  Errors (StandardClaims_Valid_vErr TimeFunc c) = 0.
Proof.
  unfold StandardClaims_Valid, valid.
  destruct (Z.eqb_spec (Errors (StandardClaims_Valid_vErr TimeFunc c)) 0);
    split; intros; try tauto; discriminate.
Qed.

Lemma Valid_nil_checks (c : StandardClaims) :
  let now := time.Unix_of (TimeFunc tt) in
  StandardClaims_Valid TimeFunc c = None <->
  VerifyExpiresAt c now false = true /\
  VerifyIssuedAt c now false = true /\
  VerifyNotBefore c now false = true.
Proof.
  cbv zeta. rewrite Valid_nil_iff, Valid_vErr_cases. cbv zeta. cbn [Errors].
  destruct (VerifyExpiresAt c _ false), (VerifyIssuedAt c _ false),
    (VerifyNotBefore c _ false); cbn; split; intros H;
    try discriminate; try tauto; try reflexivity;
    destruct H as [? [? ?]]; discriminate.
Qed.

(** C4.  The error accumulated by [Valid] has the bit of every failing
    check set, and of no passing check; its cause [Inner] is the
    message of the last failing check in the order expiration,
    issued-at, not-before; [Valid] returns [nil] exactly when no bit is
    set, and the accumulated error otherwise. *)
Theorem C4_Valid_accumulates (c : StandardClaims) :
  let now := time.Unix_of (TimeFunc tt) in
  let vErr := StandardClaims_Valid_vErr TimeFunc c in
  hasBit (Errors vErr) ValidationErrorExpired
    = negb (VerifyExpiresAt c now false) /\
  hasBit (Errors vErr) ValidationErrorIssuedAt
    = negb (VerifyIssuedAt c now false) /\
  hasBit (Errors vErr) ValidationErrorNotValidYet
    = negb (VerifyNotBefore c now false) /\
  Inner vErr =
    (if negb (VerifyNotBefore c now false) then Some notValidYetCause
     else if negb (VerifyIssuedAt c now false) then Some issuedAtCause
     else if negb (VerifyExpiresAt c now false)
          then Some (expiredCause now (ExpiresAt c))
     else None) /\
  (StandardClaims_Valid TimeFunc c = None <-> Errors vErr = 0) /\
  (Errors vErr <> 0 -> StandardClaims_Valid TimeFunc c = Some vErr).
Proof.
  cbv zeta. split; [|split; [|split; [|split; [|split]]]].
  - rewrite Valid_vErr_cases. cbv zeta. cbn [Errors].
    destruct (VerifyExpiresAt c _ false), (VerifyIssuedAt c _ false),
      (VerifyNotBefore c _ false); reflexivity.
  - rewrite Valid_vErr_cases. cbv zeta. cbn [Errors].
    destruct (VerifyExpiresAt c _ false), (VerifyIssuedAt c _ false),
      (VerifyNotBefore c _ false); reflexivity.
  - rewrite Valid_vErr_cases. cbv zeta. cbn [Errors].
    destruct (VerifyExpiresAt c _ false), (VerifyIssuedAt c _ false),
      (VerifyNotBefore c _ false); reflexivity.
  - rewrite Valid_vErr_cases. reflexivity.
  - apply Valid_nil_iff.
  - intros H. unfold StandardClaims_Valid, valid.
    destruct (Z.eqb_spec (Errors (StandardClaims_Valid_vErr TimeFunc c)) 0);
      [contradiction | reflexivity].
Qed.

(** C8.  A claim set whose expiration, issued-at and not-before are all
    unset (0) passes [Valid] with a nil error and no error bit,
    whatever the current-time source returns. *)
Theorem C8_unset_times_valid (c : StandardClaims) :
  ExpiresAt c = 0 -> IssuedAt c = 0 -> NotBefore c = 0 ->
  StandardClaims_Valid TimeFunc c = None /\
  Errors (StandardClaims_Valid_vErr TimeFunc c) = 0.
Proof.
  intros He Hi Hn.
  assert (V : StandardClaims_Valid TimeFunc c = None).
  { apply Valid_nil_checks.
    unfold VerifyExpiresAt, VerifyIssuedAt, VerifyNotBefore.
    rewrite He, Hi, Hn. repeat split. }
  split; [exact V | apply Valid_nil_iff, V].
Qed.

End ClaimsTheorems.

Section IdentityClaims.
Variable TimeFunc : unit -> time.Time.

Lemma Valid_withIdentity (c : StandardClaims) (aud id iss sub : string) :
  StandardClaims_Valid TimeFunc (withIdentity c aud id iss sub)
  = StandardClaims_Valid TimeFunc c.
Proof. reflexivity. Qed.

(** C10.  [Valid] sets no bit other than Expired, IssuedAt and
    NotValidYet, and its result does not depend on the audience, id,
    issuer and subject claims: a claim set whose times are unset or
    valid passes [Valid] whatever its identity claims are, also when
    [VerifyAudience] or [VerifyIssuer] reject them. *)
Theorem C10_Valid_ignores_identity (c : StandardClaims) :
  let now := time.Unix_of (TimeFunc tt) in
  let vErr := StandardClaims_Valid_vErr TimeFunc c in
  Z.land (Errors vErr)
    (Z.lor (Z.lor ValidationErrorExpired ValidationErrorIssuedAt)
           ValidationErrorNotValidYet) = Errors vErr /\
  Forall (fun flag => hasBit (Errors vErr) flag = false)
    [ValidationErrorMalformed; ValidationErrorUnverifiable;
     ValidationErrorSignatureInvalid; ValidationErrorAudience;
     ValidationErrorIssuer; ValidationErrorId;
     ValidationErrorClaimsInvalid] /\
  (forall aud id iss sub,
     StandardClaims_Valid TimeFunc (withIdentity c aud id iss sub)
     = StandardClaims_Valid TimeFunc c) /\
  ((ExpiresAt c = 0 \/ now <= ExpiresAt c) ->
   (IssuedAt c = 0 \/ IssuedAt c <= now) ->
   (NotBefore c = 0 \/ NotBefore c <= now) ->
   forall aud id iss sub,
     StandardClaims_Valid TimeFunc (withIdentity c aud id iss sub) = None).
Proof.
  cbv zeta. split; [|split; [|split]].
  - rewrite Valid_vErr_cases. cbv zeta. cbn [Errors].
    destruct (VerifyExpiresAt c _ false), (VerifyIssuedAt c _ false),
      (VerifyNotBefore c _ false); reflexivity.
  - rewrite Valid_vErr_cases. cbv zeta. cbn [Errors].
    destruct (VerifyExpiresAt c _ false), (VerifyIssuedAt c _ false),
      (VerifyNotBefore c _ false); repeat constructor.
  - intros. apply Valid_withIdentity.
  - intros He Hi Hn aud id iss sub.
    rewrite Valid_withIdentity. apply Valid_nil_checks.
    unfold VerifyExpiresAt, VerifyIssuedAt, VerifyNotBefore,
      verifyExp, verifyIat, verifyNbf.
    repeat split.
    + destruct (Z.eqb_spec (ExpiresAt c) 0); [reflexivity|].
      apply Z.leb_le. lia.
    + destruct (Z.eqb_spec (IssuedAt c) 0); [reflexivity|].
      apply Z.geb_le. lia.
    + destruct (Z.eqb_spec (NotBefore c) 0); [reflexivity|].
      apply Z.geb_le. lia.
Qed.
End IdentityClaims.


Lemma C4_Valid_accumulates_witness :
  let vErr := StandardClaims_Valid_vErr (clock 100) (sampleClaims 50 200 300) in
  Errors vErr = 176 /\ Errors vErr <> 0 /\
  Inner vErr = Some notValidYetCause /\
  StandardClaims_Valid (clock 100) (sampleClaims 50 200 300) = Some vErr.
Proof.
  cbv zeta. split; [reflexivity|]. split; [discriminate|].
  pose proof (C4_Valid_accumulates (clock 100) (sampleClaims 50 200 300)) as H.
  cbv zeta in H. destruct H as [_ [_ [_ [HI [_ HV]]]]].
  split; [exact HI | apply HV; discriminate].
Defined.

Lemma C8_unset_times_valid_witness :
  ExpiresAt (sampleClaims 0 0 0) = 0 /\ IssuedAt (sampleClaims 0 0 0) = 0 /\
  NotBefore (sampleClaims 0 0 0) = 0 /\
  StandardClaims_Valid (clock 1700000000) (sampleClaims 0 0 0) = None.
Proof.
  split; [reflexivity|]. split; [reflexivity|]. split; [reflexivity|].
  apply (C8_unset_times_valid (clock 1700000000) (sampleClaims 0 0 0));
    reflexivity.
Defined.

Lemma C10_Valid_ignores_identity_witness :
  (ExpiresAt (sampleClaims 2000 0 500) = 0 \/
   time.Unix_of (clock 1000 tt) <= ExpiresAt (sampleClaims 2000 0 500)) /\
  VerifyAudience (withIdentity (sampleClaims 2000 0 500) "other" "" "" "")
    "aud" true = false /\
  StandardClaims_Valid (clock 1000)
    (withIdentity (sampleClaims 2000 0 500) "other" "" "" "") = None.
Proof.
  split; [right; cbn; lia|]. split; [reflexivity|].
  apply (proj2 (proj2 (proj2
           (C10_Valid_ignores_identity (clock 1000) (sampleClaims 2000 0 500))))).
  - right. cbn. lia.
  - left. reflexivity.
  - right. cbn. lia.
Defined.

(** ** The token model *)

Section TokenProperties.
Variable json_Marshal : forall A : Type, A -> list byte * option error.
Variable C : Type.

(** [SigningString]: the two encoded segments joined by a dot, or the
    error of the first marshalling that fails. *)
Lemma SigningString_cases (t : Token C) :
  SigningString json_Marshal C t =
  match json_Marshal _ (Header t) with
  | (_, Some e) => (EmptyString, Some e)
  | (h, None) =>
      match json_Marshal _ (Claims t) with
      | (_, Some e) => (EmptyString, Some e)
      | (c, None) => ((EncodeSegment h ++ "." ++ EncodeSegment c)%string, None)
      end
  end.
Proof.
  unfold SigningString. cbn [SigningString_parts Nat.eqb].
  destruct (json_Marshal _ (Header t)) as [h [e|]]; [reflexivity|].
  destruct (json_Marshal _ (Claims t)) as [c [e|]]; reflexivity.
Qed.

(** C7.  When [SigningString] and the method's [Sign] both succeed,
    [SignedString] returns the signing string, a dot and the signature;
    when one of them fails it returns the empty string and that error;
    and it fails in no other way. *)
Theorem C7_SignedString (t : Token C) (key : iface) :
  (forall sstr sig,
     SigningString json_Marshal C t = (sstr, None) ->
     Sign (Method t) sstr key = (sig, None) ->
     SignedString json_Marshal C t key = ((sstr ++ "." ++ sig)%string, None)) /\
  (forall s e,
     SigningString json_Marshal C t = (s, Some e) ->
     SignedString json_Marshal C t key = (EmptyString, Some e)) /\
  (forall sstr s e,
     SigningString json_Marshal C t = (sstr, None) ->
     Sign (Method t) sstr key = (s, Some e) ->
     SignedString json_Marshal C t key = (EmptyString, Some e)) /\
  (forall r e,
     SignedString json_Marshal C t key = (r, Some e) ->
     r = EmptyString /\
     (snd (SigningString json_Marshal C t) = Some e \/
      exists sstr, SigningString json_Marshal C t = (sstr, None) /\
                   snd (Sign (Method t) sstr key) = Some e)).
Proof.
  unfold SignedString. repeat split.
  - intros sstr sig -> ->. reflexivity.
  - intros s e ->. reflexivity.
  - intros sstr s e -> ->. reflexivity.
  - destruct (SigningString json_Marshal C t) as [sstr [e'|]];
      [congruence|].
    destruct (Sign (Method t) sstr key) as [sig [e'|]]; congruence.
  - destruct (SigningString json_Marshal C t) as [sstr [e'|]].
    + left. cbn. congruence.
    + right. exists sstr. split; [reflexivity|].
      destruct (Sign (Method t) sstr key) as [sig [e'|]]; cbn; congruence.
Qed.
End TokenProperties.

Lemma C7_SignedString_witness :
  SigningString braces_Marshal StandardClaims sampleToken = ("e30.e30"%string, None) /\
  Sign (Method sampleToken) "e30.e30" (IfaceBytes [x6b]) = ("a2UzMC5lMzA"%string, None) /\
  SignedString braces_Marshal StandardClaims sampleToken (IfaceBytes [x6b])
    = ("e30.e30.a2UzMC5lMzA"%string, None).
Proof.
  split; [reflexivity|]. split; [reflexivity|].
  apply (proj1 (C7_SignedString braces_Marshal StandardClaims sampleToken
                  (IfaceBytes [x6b])) "e30.e30"%string "a2UzMC5lMzA"%string);
    reflexivity.
Defined.

(** * Further properties *)

(** ** Identity claims *)

Lemma bytes_inj (a b : string) : bytes a = bytes b -> a = b.
Proof.
  intros H. rewrite <- (gostring_bytes a), <- (gostring_bytes b), H.
  reflexivity.
Qed.

Lemma ConstantTimeCompare_strings (a b : string) :
  negb (subtle.ConstantTimeCompare (bytes a) (bytes b) =? 0) = String.eqb a b.
Proof.
  rewrite ConstantTimeCompare_spec.
  destruct (list_eq_dec Byte.byte_eq_dec (bytes a) (bytes b)) as [E|E];
    destruct (String.eqb_spec a b) as [S|S]; try reflexivity.
  - exfalso. apply S, bytes_inj, E.
  - exfalso. apply E. rewrite S. reflexivity.
Qed.

(** X1.  [VerifyAudience] accepts exactly an unset audience that is not
    required, and a set audience equal to the comparison string. *)
Theorem X1_VerifyAudience (c : StandardClaims) (cmp : string) (req : bool) :
  VerifyAudience c cmp req = true <->
  (Audience c = EmptyString /\ req = false) \/
  (Audience c <> EmptyString /\ Audience c = cmp).
Proof.
  unfold VerifyAudience, verifyAud. rewrite ConstantTimeCompare_strings.
  destruct (String.eqb_spec (Audience c) "") as [E|E].
  - destruct req; cbn; intuition congruence.
  - destruct (String.eqb_spec (Audience c) cmp) as [Q|Q]; intuition congruence.
Qed.

(** X2.  [VerifyIssuer] accepts exactly an unset issuer that is not
    required, and a set issuer equal to the comparison string. *)
Theorem X2_VerifyIssuer (c : StandardClaims) (cmp : string) (req : bool) :
  VerifyIssuer c cmp req = true <->
  (Issuer c = EmptyString /\ req = false) \/
  (Issuer c <> EmptyString /\ Issuer c = cmp).
Proof.
  unfold VerifyIssuer, verifyIss. rewrite ConstantTimeCompare_strings.
  destruct (String.eqb_spec (Issuer c) "") as [E|E].
  - destruct req; cbn; intuition congruence.
  - destruct (String.eqb_spec (Issuer c) cmp) as [Q|Q]; intuition congruence.
Qed.

(** ** The validity window of the standard claims *)

Lemma verify_checks_window (c : StandardClaims) (now : Z) :
  (VerifyExpiresAt c now false = true <-> ExpiresAt c = 0 \/ now <= ExpiresAt c) /\
  (VerifyIssuedAt c now false = true <-> IssuedAt c = 0 \/ IssuedAt c <= now) /\
  (VerifyNotBefore c now false = true <-> NotBefore c = 0 \/ NotBefore c <= now).
Proof.
  unfold VerifyExpiresAt, VerifyIssuedAt, VerifyNotBefore,
    verifyExp, verifyIat, verifyNbf.
  destruct (Z.eqb_spec (ExpiresAt c) 0), (Z.eqb_spec (IssuedAt c) 0),
    (Z.eqb_spec (NotBefore c) 0); cbn [negb];
    rewrite ?Z.leb_le, ?Z.geb_le; intuition lia.
Qed.

Lemma Valid_window (TimeFunc : unit -> time.Time) (c : StandardClaims) :
  StandardClaims_Valid TimeFunc c = None <->
  (ExpiresAt c = 0 \/ time.Unix_of (TimeFunc tt) <= ExpiresAt c) /\
  (IssuedAt c = 0 \/ IssuedAt c <= time.Unix_of (TimeFunc tt)) /\
  (NotBefore c = 0 \/ NotBefore c <= time.Unix_of (TimeFunc tt)).
Proof.
  rewrite Valid_nil_checks. cbv zeta.
  destruct (verify_checks_window c (time.Unix_of (TimeFunc tt))) as [E [I N]].
  rewrite E, I, N. reflexivity.
Qed.

(** X3.  [Valid] returns nil exactly at the instants of the window that
    the set claims span: not after a set expiration, not before a set
    issued-at and not before a set not-before. *)
Theorem X3_Valid_window (TimeFunc : unit -> time.Time) (c : StandardClaims) :
  let now := time.Unix_of (TimeFunc tt) in
  StandardClaims_Valid TimeFunc c = None <->
  (ExpiresAt c = 0 \/ now <= ExpiresAt c) /\
  (IssuedAt c = 0 \/ IssuedAt c <= now) /\
  (NotBefore c = 0 \/ NotBefore c <= now).
Proof. cbv zeta. apply Valid_window. Qed.

Lemma hasBit_Expired (TimeFunc : unit -> time.Time) (c : StandardClaims) :
  hasBit (Errors (StandardClaims_Valid_vErr TimeFunc c)) ValidationErrorExpired
  = negb (VerifyExpiresAt c (time.Unix_of (TimeFunc tt)) false).
Proof.
  rewrite Valid_vErr_cases. cbv zeta. cbn [Errors].
  destruct (VerifyExpiresAt c _ false), (VerifyIssuedAt c _ false),
    (VerifyNotBefore c _ false); reflexivity.
Qed.

Lemma hasBit_IssuedAt (TimeFunc : unit -> time.Time) (c : StandardClaims) :
  hasBit (Errors (StandardClaims_Valid_vErr TimeFunc c)) ValidationErrorIssuedAt
  = negb (VerifyIssuedAt c (time.Unix_of (TimeFunc tt)) false).
Proof.
  rewrite Valid_vErr_cases. cbv zeta. cbn [Errors].
  destruct (VerifyExpiresAt c _ false), (VerifyIssuedAt c _ false),
    (VerifyNotBefore c _ false); reflexivity.
Qed.

Lemma hasBit_NotValidYet (TimeFunc : unit -> time.Time) (c : StandardClaims) :
  hasBit (Errors (StandardClaims_Valid_vErr TimeFunc c)) ValidationErrorNotValidYet
  = negb (VerifyNotBefore c (time.Unix_of (TimeFunc tt)) false).
Proof.
  rewrite Valid_vErr_cases. cbv zeta. cbn [Errors].
  destruct (VerifyExpiresAt c _ false), (VerifyIssuedAt c _ false),
    (VerifyNotBefore c _ false); reflexivity.
Qed.

(** X4.  The verdicts of [Valid] are monotone in time: a claim set found
    expired stays expired at every later instant, and one found used
    before issue or not yet valid is so at every earlier instant. *)
Theorem X4_Valid_monotone (T1 T2 : unit -> time.Time) (c : StandardClaims) :
  time.Unix_of (T1 tt) <= time.Unix_of (T2 tt) ->
  (hasBit (Errors (StandardClaims_Valid_vErr T1 c)) ValidationErrorExpired = true ->
   hasBit (Errors (StandardClaims_Valid_vErr T2 c)) ValidationErrorExpired = true) /\
  (hasBit (Errors (StandardClaims_Valid_vErr T2 c)) ValidationErrorIssuedAt = true ->
   hasBit (Errors (StandardClaims_Valid_vErr T1 c)) ValidationErrorIssuedAt = true) /\
  (hasBit (Errors (StandardClaims_Valid_vErr T2 c)) ValidationErrorNotValidYet = true ->
   hasBit (Errors (StandardClaims_Valid_vErr T1 c)) ValidationErrorNotValidYet = true).
Proof.
  intros Hle.
  rewrite !hasBit_Expired, !hasBit_IssuedAt, !hasBit_NotValidYet.
  rewrite !negb_true_iff, <- !not_true_iff_false.
  destruct (verify_checks_window c (time.Unix_of (T1 tt))) as [E1 [I1 N1]].
  destruct (verify_checks_window c (time.Unix_of (T2 tt))) as [E2 [I2 N2]].
  rewrite E1, E2, I1, I2, N1, N2. intuition lia.
Qed.

(** X5.  A claim set whose set expiration lies before its set not-before
    or before its set issued-at is rejected by [Valid] at every instant. *)
Theorem X5_Valid_empty_window (TimeFunc : unit -> time.Time) (c : StandardClaims) :
  ExpiresAt c <> 0 ->
  (NotBefore c <> 0 /\ ExpiresAt c < NotBefore c) \/
  (IssuedAt c <> 0 /\ ExpiresAt c < IssuedAt c) ->
  StandardClaims_Valid TimeFunc c <> None.
Proof.
  intros He Hw V. apply Valid_window in V. lia.
Qed.

Lemma X4_Valid_monotone_witness :
  time.Unix_of (clock 100 tt) <= time.Unix_of (clock 200 tt) /\
  hasBit (Errors (StandardClaims_Valid_vErr (clock 100) (sampleClaims 50 0 0)))
    ValidationErrorExpired = true /\
  hasBit (Errors (StandardClaims_Valid_vErr (clock 200) (sampleClaims 50 0 0)))
    ValidationErrorExpired = true.
Proof.
  split; [cbn; lia|]. split; [reflexivity|].
  apply (proj1 (X4_Valid_monotone (clock 100) (clock 200) (sampleClaims 50 0 0)
                  ltac:(cbn; lia))).
  reflexivity.
Defined.

Lemma X5_Valid_empty_window_witness :
  ExpiresAt (sampleClaims 100 0 200) <> 0 /\
  (NotBefore (sampleClaims 100 0 200) <> 0 /\
   ExpiresAt (sampleClaims 100 0 200) < NotBefore (sampleClaims 100 0 200)) /\
  StandardClaims_Valid (clock 150) (sampleClaims 100 0 200) <> None.
Proof.
  split; [cbn; lia|]. split; [cbn; lia|].
  apply (X5_Valid_empty_window (clock 150) (sampleClaims 100 0 200));
    [cbn; lia | left; cbn; lia].
Defined.

(** ** The text of the error that [Valid] returns *)

(** X6.  An error returned by [Valid] always carries a cause and no
    text, so its [Error()] is the message of that cause, the one of the
    last failing check, and never the fallback text. *)
Theorem X6_Valid_error_text (inner_Error : error -> string)
    (TimeFunc : unit -> time.Time) (c : StandardClaims) (vErr : ValidationError) :
  StandardClaims_Valid TimeFunc c = Some vErr ->
  let now := time.Unix_of (TimeFunc tt) in
  let cause :=
    if negb (VerifyNotBefore c now false) then notValidYetCause
    else if negb (VerifyIssuedAt c now false) then issuedAtCause
    else expiredCause now (ExpiresAt c) in
  Inner vErr = Some cause /\ text vErr = EmptyString /\
  ValidationError_Error inner_Error vErr = inner_Error cause.
Proof.
  intros V. cbv zeta.
  unfold StandardClaims_Valid in V.
  destruct (valid (StandardClaims_Valid_vErr TimeFunc c)) eqn:Q; [discriminate|].
  injection V as <-. unfold valid in Q.
  unfold ValidationError_Error.
  rewrite Valid_vErr_cases in *. cbv zeta in *. cbn [Inner Errors text] in *.
  destruct (VerifyExpiresAt c _ false), (VerifyIssuedAt c _ false),
    (VerifyNotBefore c _ false); cbn in *; try discriminate; repeat split.
Qed.

Lemma X6_Valid_error_text_witness :
  StandardClaims_Valid (clock 100) (sampleClaims 50 0 300)
    = Some (StandardClaims_Valid_vErr (clock 100) (sampleClaims 50 0 300)) /\
  ValidationError_Error (fun _ => "cause"%string)
    (StandardClaims_Valid_vErr (clock 100) (sampleClaims 50 0 300)) = "cause"%string.
Proof.
  split; [reflexivity|].
  apply (proj2 (proj2 (X6_Valid_error_text (fun _ => "cause"%string) (clock 100)
                         (sampleClaims 50 0 300) _ eq_refl))).
Defined.

(** ** More on the HMAC signing method *)

Section HMACFurther.
Variable Available : crypto_Hash -> bool.
Variable hmac_Sum : crypto_Hash -> list byte -> list byte -> list byte.

(** X7.  When the hash of the method is not available, [Sign] with a
    byte-slice key fails with [ErrHashUnavailable], and [Verify] never
    succeeds: it returns the decoder's error for a signature text that
    does not decode and [ErrHashUnavailable] otherwise, also for the text
    that would match. *)
Theorem X7_hash_unavailable (m : SigningMethodHMAC) (s sig : string) (k : list byte) :
  Available (Hash m) = false ->
  HMAC_Sign Available hmac_Sum m s (IfaceBytes k)
    = (EmptyString, Some ErrHashUnavailable) /\
  HMAC_Verify Available hmac_Sum m s sig (IfaceBytes k)
    = match snd (DecodeSegment sig) with
      | Some e => Some e
      | None => Some ErrHashUnavailable
      end /\
  HMAC_Verify Available hmac_Sum m s sig (IfaceBytes k) <> None.
Proof.
  intros Ha. unfold HMAC_Sign, HMAC_Verify. rewrite Ha. cbn [negb].
  split; [reflexivity|].
  destruct (DecodeSegment sig) as [d [e|]]; cbn [snd]; split;
    try reflexivity; discriminate.
Qed.

(** X8.  With the hash available, a signature made by [Sign] for the
    message [s] and key [k] is accepted by [Verify] for a message [s']
    and key [k'] exactly when the two MACs are equal, and is rejected
    with [ErrSignatureInvalid] otherwise. *)
Theorem X8_Verify_other_key_or_message
    (m : SigningMethodHMAC) (s s' : string) (k k' : list byte) :
  Available (Hash m) = true ->
  let sig := fst (HMAC_Sign Available hmac_Sum m s (IfaceBytes k)) in
  (HMAC_Verify Available hmac_Sum m s' sig (IfaceBytes k') = None <->
   hmac_Sum (Hash m) k (bytes s) = hmac_Sum (Hash m) k' (bytes s')) /\
  (hmac_Sum (Hash m) k (bytes s) <> hmac_Sum (Hash m) k' (bytes s') ->
   HMAC_Verify Available hmac_Sum m s' sig (IfaceBytes k')
     = Some ErrSignatureInvalid).
Proof.
  intros Ha. cbv zeta. unfold HMAC_Sign at 1 2. rewrite Ha. cbn [negb fst].
  rewrite Verify_bytes by exact Ha. rewrite DecodeSegment_EncodeSegment.
  destruct (list_eq_dec Byte.byte_eq_dec _ _) as [E|E]; split;
    try tauto; try (split; congruence); intros; congruence.
Qed.
End HMACFurther.

Lemma X7_hash_unavailable_witness :
  (fun _ : crypto_Hash => false) (Hash SigningMethodHS384) = false /\
  HMAC_Verify (fun _ => false) concat_mac SigningMethodHS384 "a.b"
    (EncodeSegment (concat_mac (Hash SigningMethodHS384) [x6b] (bytes "a.b")))
    (IfaceBytes [x6b]) = Some ErrHashUnavailable.
Proof.
  split; [reflexivity|].
  exact (proj1 (proj2 (X7_hash_unavailable (fun _ => false) concat_mac
           SigningMethodHS384 "a.b"
           (EncodeSegment (concat_mac (Hash SigningMethodHS384) [x6b] (bytes "a.b")))
           [x6b] eq_refl))).
Defined.

Lemma X8_Verify_other_key_or_message_witness :
  all_available (Hash SigningMethodHS256) = true /\
  concat_mac (Hash SigningMethodHS256) [x6b] (bytes "a.b")
    <> concat_mac (Hash SigningMethodHS256) [x6c] (bytes "a.b") /\
  HMAC_Verify all_available concat_mac SigningMethodHS256 "a.b"
    (fst (HMAC_Sign all_available concat_mac SigningMethodHS256 "a.b"
            (IfaceBytes [x6b])))
    (IfaceBytes [x6c]) = Some ErrSignatureInvalid.
Proof.
  split; [reflexivity|]. split; [discriminate|].
  apply (proj2 (X8_Verify_other_key_or_message all_available concat_mac
                  SigningMethodHS256 "a.b" "a.b" [x6b] [x6c] eq_refl)).
  discriminate.
Defined.

(** ** More on the segment codec *)

(** X9.  [EncodeSegment] is injective: two byte sequences with the same
    encoding are equal. *)
Theorem X9_EncodeSegment_injective (a b : list byte) :
  EncodeSegment a = EncodeSegment b -> a = b.
Proof.
  intros H.
  pose proof (DecodeSegment_EncodeSegment a) as Da.
  pose proof (DecodeSegment_EncodeSegment b) as Db.
  rewrite H in Da. congruence.
Qed.

Lemma X9_EncodeSegment_injective_witness :
  EncodeSegment [x41] = EncodeSegment (bytes "A") /\ [x41] = bytes "A".
Proof.
  split; [reflexivity|].
  apply (X9_EncodeSegment_injective [x41] (bytes "A")). reflexivity.
Defined.

Lemma Encode_RawURL_length (b : list byte) :
  Z.of_nat (List.length (base64.Encode RawURL b))
  = (4 * Z.of_nat (List.length b) + 2) / 3.
Proof.
  induction b as [| b0 | b0 b1 | b0 b1 b2 l IH] using list_ind3;
    try reflexivity.
  cbn [base64.Encode List.length].
  replace (Z.of_nat (S (S (S (S (List.length (base64.Encode RawURL l)))))))
    with (Z.of_nat (List.length (base64.Encode RawURL l)) + 4) by lia.
  rewrite IH.
  replace (4 * Z.of_nat (S (S (S (List.length l)))) + 2)
    with (4 * Z.of_nat (List.length l) + 2 + 4 * 3) by lia.
  rewrite Z.div_add by lia. reflexivity.
Qed.

Lemma bytes_EncodeSegment (b : list byte) :
  bytes (EncodeSegment b) = base64.Encode RawURL b.
Proof. rewrite EncodeSegment_RawURL. apply bytes_gostring. Qed.

(** X10.  The encoding of [n] bytes has [ceil(4n/3)] characters, all of
    them among the 64 characters of the URL-safe alphabet. *)
Theorem X10_EncodeSegment_shape (b : list byte) :
  len (EncodeSegment b) = (4 * Z.of_nat (List.length b) + 2) / 3 /\
  Forall (fun c => inAlphabet c = true) (bytes (EncodeSegment b)).
Proof.
  split.
  - unfold len. rewrite EncodeSegment_RawURL, length_gostring.
    apply Encode_RawURL_length.
  - rewrite bytes_EncodeSegment. apply Encode_RawURL_alphabet.
Qed.

Lemma padCount_pos (b : list byte) :
  Z.of_nat (List.length b) mod 3 <> 0 -> (0 < padCount b)%nat.
Proof.
  induction b as [| b0 | b0 b1 | b0 b1 b2 l IH] using list_ind3; intros H.
  - exfalso. apply H. reflexivity.
  - cbn. lia.
  - cbn. lia.
  - cbn [padCount]. apply IH.
    cbn [List.length] in H.
    replace (Z.of_nat (S (S (S (List.length l)))))
      with (Z.of_nat (List.length l) + 1 * 3) in H by lia.
    rewrite Z.mod_add in H by lia. exact H.
Qed.

Lemma DecodeSegment_padded (b : list byte) :
  DecodeSegment (base64.EncodeToString URL b) = (b, None).
Proof.
  rewrite DecodeSegment_Decode. unfold base64.EncodeToString.
  rewrite bytes_gostring, Encode_length, Nat2Z.inj_mul.
  change (Z.of_nat 4) with 4. rewrite Z.mul_comm, Z.mod_mul by lia.
  cbv zeta. cbn [Z.ltb Z.compare]. apply Decode_Encode.
Qed.

Lemma padded_differs (b : list byte) :
  Z.of_nat (List.length b) mod 3 <> 0 ->
  base64.EncodeToString URL b <> EncodeSegment b.
Proof.
  intros H E. apply (f_equal String.length) in E.
  unfold base64.EncodeToString in E.
  rewrite EncodeSegment_RawURL, !length_gostring, Encode_padding in E.
  rewrite length_app, repeat_length in E.
  pose proof (padCount_pos b H). lia.
Qed.

(** X11.  [DecodeSegment] also decodes the padded encoding of a byte
    sequence, which differs from the text of [EncodeSegment] whenever the
    number of bytes is not a multiple of three: decoding is not
    injective. *)
Theorem X11_DecodeSegment_accepts_padding (b : list byte) :
  DecodeSegment (base64.EncodeToString base64.URLEncoding b) = (b, None) /\
  (Z.of_nat (List.length b) mod 3 <> 0 ->
   base64.EncodeToString base64.URLEncoding b <> EncodeSegment b).
Proof.
  split; [apply DecodeSegment_padded | apply padded_differs].
Qed.

Lemma X11_DecodeSegment_accepts_padding_witness :
  Z.of_nat (List.length [x41]) mod 3 <> 0 /\
  base64.EncodeToString base64.URLEncoding [x41] <> EncodeSegment [x41].
Proof.
  split; [discriminate|].
  apply (proj2 (X11_DecodeSegment_accepts_padding [x41])). discriminate.
Defined.

Section HMACMalleability.
Variable Available : crypto_Hash -> bool.
Variable hmac_Sum : crypto_Hash -> list byte -> list byte -> list byte.

(** X12.  [Verify] accepts more than one signature text for the same
    message and key: besides the text that [Sign] returns it accepts the
    padded encoding of the MAC, a different text whenever the length of
    the MAC is not a multiple of three. *)
Theorem X12_Verify_accepts_padded_signature
    (m : SigningMethodHMAC) (s : string) (k : list byte) :
  Available (Hash m) = true ->
  let mac := hmac_Sum (Hash m) k (bytes s) in
  let padded := base64.EncodeToString base64.URLEncoding mac in
  HMAC_Verify Available hmac_Sum m s padded (IfaceBytes k) = None /\
  (Z.of_nat (List.length mac) mod 3 <> 0 ->
   padded <> fst (HMAC_Sign Available hmac_Sum m s (IfaceBytes k))).
Proof.
  intros Ha. cbv zeta. split.
  - rewrite Verify_bytes by exact Ha. fold URL. rewrite DecodeSegment_padded.
    destruct (list_eq_dec Byte.byte_eq_dec _ _); congruence.
  - intros H. unfold HMAC_Sign. rewrite Ha. cbn [negb fst].
    apply padded_differs, H.
Qed.
End HMACMalleability.

Lemma X12_Verify_accepts_padded_signature_witness :
  all_available (Hash SigningMethodHS256) = true /\
  HMAC_Verify all_available concat_mac SigningMethodHS256 "a.b" "a2EuYg=="
    (IfaceBytes [x6b]) = None /\
  fst (HMAC_Sign all_available concat_mac SigningMethodHS256 "a.b"
         (IfaceBytes [x6b])) = "a2EuYg"%string.
Proof.
  split; [reflexivity|]. split; [|reflexivity].
  exact (proj1 (X12_Verify_accepts_padded_signature all_available concat_mac
                  SigningMethodHS256 "a.b" [x6b] eq_refl)).
Defined.

(** ** The length of what [DecodeSegment] returns *)

Lemma assemble_URL_out dbuf dlen rest si err :
  exists out, base64.assemble URL dbuf dlen rest si err = (rest, si, out, err) /\
              (List.length out <= 3)%nat.
Proof.
  destruct dlen as [|[|[|[|[|n]]]]]; eexists; (split; [reflexivity | cbn; lia]).
Qed.

Lemma skipNewlines_length (rest : list byte) (si : Z) :
  (List.length (fst (base64.skipNewlines rest si)) <= List.length rest)%nat.
Proof.
  destruct (skipNewlines_spec rest si) as [pre [E _]].
  rewrite E at 2. rewrite length_app. lia.
Qed.

Lemma afterPadding_out dbuf j rest si :
  let '(rest', _, out, _) := base64.afterPadding URL dbuf j rest si in
  (List.length rest' <= List.length rest)%nat /\ (List.length out <= 3)%nat.
Proof.
  unfold base64.afterPadding.
  pose proof (skipNewlines_length rest si) as L.
  destruct (base64.skipNewlines rest si) as [rest1 si1]. cbn [fst] in L.
  match goal with
  | |- context [base64.assemble URL ?d ?l ?r ?s ?e] =>
      destruct (assemble_URL_out d l r s e) as [out [-> Ho]]
  end.
  split; assumption.
Qed.

Lemma yields_error j rest rest' si off :
  (List.length rest' <= List.length rest)%nat ->
  yields j rest (rest', si, [], Some (CorruptInputError off)).
Proof.
  intros H. split; [exact H|]. split; [cbn; lia|]. intros N. contradiction.
Qed.

Lemma quantumLoop_yields (rest : list byte) : forall si j dbuf,
  yields j rest (base64.quantumLoop URL rest si j dbuf).
Proof.
  induction rest as [|c rest IH]; intros si j dbuf.
  - destruct j as [|[|[|[|j]]]]; cbn; repeat split; try lia;
      intros N; try contradiction; cbn; lia.
  - destruct (le_lt_dec 4 j) as [Hj|Hj].
    + rewrite quantumLoop_done by exact Hj.
      destruct (assemble_URL_out dbuf 4 (c :: rest) si None) as [out [-> Ho]].
      split; [lia|]. split; [exact Ho|]. intros _. cbn [List.length]. lia.
    + rewrite quantumLoop_cons by exact Hj.
      destruct (inAlphabet c).
      { specialize (IH (si + 1) (S j) (store dbuf j (decoded c))).
        destruct (base64.quantumLoop URL rest (si + 1) (S j) _)
          as [[[r s'] out] err].
        destruct IH as [A [B D]].
        split; [cbn [List.length]; lia|]. split; [exact B|]. intros N. specialize (D N). cbn [List.length]. lia. }
      destruct (base64.isNewline c).
      { specialize (IH (si + 1) j dbuf).
        destruct (base64.quantumLoop URL rest (si + 1) j dbuf)
          as [[[r s'] out] err].
        destruct IH as [A [B D]].
        split; [cbn [List.length]; lia|]. split; [exact B|]. intros N. specialize (D N). cbn [List.length]. lia. }
      destruct (Byte.eqb c x3d); cbn [negb];
        [|apply yields_error; cbn; lia].
      destruct j as [|[|[|j]]]; try (apply yields_error; cbn; lia).
      * pose proof (skipNewlines_length rest (si + 1)) as L.
        destruct (base64.skipNewlines rest (si + 1)) as [rest2 si2].
        cbn [fst] in L.
        destruct rest2 as [|c2 rest3]; [apply yields_error; cbn; lia|].
        destruct (Byte.eqb c2 x3d); cbn [negb];
          [|apply yields_error; cbn in *; lia].
        pose proof (afterPadding_out dbuf 2 rest3 (si2 + 1)) as P.
        destruct (base64.afterPadding URL dbuf 2 rest3 (si2 + 1))
          as [[[r s'] out] err].
        destruct P as [A B]. cbn [List.length] in *.
        split; [cbn [List.length]; lia|]. split; [exact B|].
        intros _. cbn [List.length]. lia.
      * pose proof (afterPadding_out dbuf (S (S (S j))) rest (si + 1)) as P.
        destruct (base64.afterPadding URL dbuf (S (S (S j))) rest (si + 1))
          as [[[r s'] out] err].
        destruct P as [A B]. cbn [List.length] in *.
        split; [cbn [List.length]; lia|]. split; [exact B|].
        intros _. cbn [List.length]. lia.
Qed.

Lemma decodeFrom_length (fuel : nat) : forall rest si acc out err,
  base64.decodeFrom URL fuel rest si acc = Some (out, err) ->
  (4 * List.length out <= 4 * List.length acc + 3 * List.length rest)%nat.
Proof.
  induction fuel as [|fuel IH]; intros rest si acc out err D.
  - destruct rest; [|discriminate]. cbn in D. injection D as <- <-. lia.
  - destruct rest as [|c rest]; [cbn in D; injection D as <- <-; lia|].
    cbn [base64.decodeFrom] in D. unfold base64.decodeQuantum in D.
    pose proof (quantumLoop_yields (c :: rest) si 0 [x00; x00; x00; x00]) as Y.
    destruct (base64.quantumLoop URL (c :: rest) si 0 [x00; x00; x00; x00])
      as [[[rest' si'] o] e].
    destruct Y as [A [B Y]].
    assert (Q : (4 * List.length o + 3 * List.length rest'
                 <= 3 * List.length (c :: rest))%nat).
    { destruct o as [|x o]; [cbn [List.length] in *; lia|].
      assert (N : x :: o <> []) by discriminate.
      specialize (Y N). lia. }
    destruct e as [e|].
    + injection D as <- <-. rewrite length_app. lia.
    + apply IH in D. rewrite length_app in D. lia.
Qed.

Lemma Decode_length (src : list byte) :
  (4 * List.length (fst (base64.Decode URL src)) <= 3 * List.length src)%nat.
Proof.
  unfold base64.Decode.
  destruct (base64.decodeFrom URL (List.length src) src 0 []) as [[out err]|] eqn:D.
  - apply decodeFrom_length in D. cbn [fst List.length] in *. lia.
  - cbn. lia.
Qed.

(** X13.  The bytes that [DecodeSegment] returns, with or without an
    error, are at most three for every four characters of the re-padded
    text: never more than the buffer that the decoder allocates. *)
Theorem X13_DecodeSegment_length (seg : string) :
  Z.of_nat (List.length (fst (DecodeSegment seg))) <= 3 * ((len seg + 3) / 4).
Proof.
  rewrite DecodeSegment_repad.
  pose proof (Decode_length (repad (bytes seg))) as D.
  pose proof (repad_length (bytes seg)) as M.
  destruct (repad_suffix (bytes seg)) as [k [Hk E]].
  assert (L : len seg = Z.of_nat (List.length (bytes seg))).
  { unfold len. rewrite <- (gostring_bytes seg) at 1.
    rewrite length_gostring. reflexivity. }
  assert (LE : List.length (repad (bytes seg))
               = (List.length (bytes seg) + k)%nat).
  { rewrite E, length_app, repeat_length. reflexivity. }
  rewrite LE in D, M. rewrite L. clear E LE L.
  set (n := List.length (bytes seg)) in *.
  set (o := List.length (fst (base64.Decode URL (repad (bytes seg))))) in *.
  rewrite Nat2Z.inj_add in M.
  assert (Q : (Z.of_nat n + 3) / 4 = (Z.of_nat n + Z.of_nat k) / 4).
  { symmetry. apply (Z.div_unique _ 4 _ (3 - Z.of_nat k)); [lia|].
    pose proof (Z.div_mod (Z.of_nat n + Z.of_nat k) 4 ltac:(lia)). lia. }
  rewrite Q.
  pose proof (Z.div_mod (Z.of_nat n + Z.of_nat k) 4 ltac:(lia)). lia.
Qed.

(** ** Tokens signed with an HMAC method *)

Lemma countByte_app (a b : string) (c : ascii) :
  countByte (a ++ b) c = (countByte a c + countByte b c)%nat.
Proof.
  induction a as [|d a IH]; [reflexivity|].
  cbn. rewrite IH. lia.
Qed.

Lemma alphabet_not_dot (c : byte) :
  inAlphabet c = true -> Ascii.eqb "." (ascii_of_byte c) = false.
Proof. destruct c; vm_compute; intros H; congruence. Qed.

Lemma countByte_alphabet (raw : list byte) :
  Forall (fun c => inAlphabet c = true) raw ->
  countByte (gostring raw) "." = 0%nat.
Proof.
  induction 1 as [|c raw Hc Hraw IH]; [reflexivity|].
  change (gostring (c :: raw)) with (String (ascii_of_byte c) (gostring raw)).
  cbn [countByte]. rewrite IH, (alphabet_not_dot c Hc). reflexivity.
Qed.

Lemma countByte_EncodeSegment (b : list byte) :
  countByte (EncodeSegment b) "." = 0%nat.
Proof.
  rewrite EncodeSegment_RawURL.
  apply countByte_alphabet, Encode_RawURL_alphabet.
Qed.

Section HMACTokens.
Variable json_Marshal : forall A : Type, A -> list byte * option error.
Variable C : Type.
Variable Available : crypto_Hash -> bool.
Variable hmac_Sum : crypto_Hash -> list byte -> list byte -> list byte.

(** What a successful [SignedString] of a token with an HMAC method
    returns. *)
Lemma SignedString_HMAC (t : Token C) (m : SigningMethodHMAC) (key : iface) (r : string) :
  Method t = HMAC_SigningMethod Available hmac_Sum m ->
  SignedString json_Marshal C t key = (r, None) ->
  exists h c k,
    json_Marshal _ (Header t) = (h, None) /\
    json_Marshal _ (Claims t) = (c, None) /\
    key = IfaceBytes k /\ Available (Hash m) = true /\
    SigningString json_Marshal C t
      = ((EncodeSegment h ++ "." ++ EncodeSegment c)%string, None) /\
    r = ((EncodeSegment h ++ "." ++ EncodeSegment c) ++ "." ++
         EncodeSegment (hmac_Sum (Hash m) k
                          (bytes (EncodeSegment h ++ "." ++ EncodeSegment c))))%string.
Proof.
  intros Hm S. unfold SignedString in S.
  pose proof (SigningString_cases json_Marshal C t) as SS.
  destruct (json_Marshal _ (Header t)) as [h [e|]];
    [rewrite SS in S; discriminate|].
  destruct (json_Marshal _ (Claims t)) as [c [e|]];
    [rewrite SS in S; discriminate|].
  rewrite SS in S. rewrite Hm in S. cbn [Sign HMAC_SigningMethod] in S.
  unfold HMAC_Sign in S.
  destruct key as [|k| |]; try discriminate.
  destruct (Available (Hash m)) eqn:Ha; cbn [negb] in S; [|discriminate].
  cbn [strings.Join] in S. injection S as <-.
  exists h, c, k. repeat split; assumption.
Qed.

(** X14.  A token text that [SignedString] produces with an HMAC method
    consists of the encoded header, the encoded claims and the encoded
    MAC of the first two, joined by dots, and so holds exactly two dots;
    [SignedString] succeeds only with a byte-slice key and an available
    hash. *)
Theorem X14_SignedString_three_segments
    (t : Token C) (m : SigningMethodHMAC) (key : iface) (r : string) :
  Method t = HMAC_SigningMethod Available hmac_Sum m ->
  SignedString json_Marshal C t key = (r, None) ->
  (exists h c k,
     json_Marshal _ (Header t) = (h, None) /\
     json_Marshal _ (Claims t) = (c, None) /\
     key = IfaceBytes k /\ Available (Hash m) = true /\
     r = ((EncodeSegment h ++ "." ++ EncodeSegment c) ++ "." ++
          EncodeSegment (hmac_Sum (Hash m) k
                           (bytes (EncodeSegment h ++ "." ++ EncodeSegment c))))%string) /\
  countByte r "." = 2%nat.
Proof.
  intros Hm S.
  destruct (SignedString_HMAC t m key r Hm S) as [h [c [k [Eh [Ec [Ek [Ha [_ Er]]]]]]]].
  split.
  - exists h, c, k. repeat split; assumption.
  - rewrite Er. rewrite !countByte_app, !countByte_EncodeSegment. reflexivity.
Qed.

(** X15.  The token text of [SignedString] verifies: with an HMAC
    method, the method's [Verify] accepts the signature segment for the
    signing string under the key that signed. *)
Theorem X15_SignedString_verifies
    (t : Token C) (m : SigningMethodHMAC) (key : iface) (r : string) :
  Method t = HMAC_SigningMethod Available hmac_Sum m ->
  SignedString json_Marshal C t key = (r, None) ->
  exists sstr sig,
    SigningString json_Marshal C t = (sstr, None) /\
    r = (sstr ++ "." ++ sig)%string /\
    Verify (Method t) sstr sig key = None.
Proof.
  intros Hm S.
  destruct (SignedString_HMAC t m key r Hm S) as [h [c [k [Eh [Ec [Ek [Ha [Es Er]]]]]]]].
  eexists _, _. split; [exact Es|]. split; [exact Er|].
  rewrite Hm, Ek. cbn [Verify HMAC_SigningMethod].
  rewrite Verify_bytes by exact Ha. rewrite DecodeSegment_EncodeSegment.
  destruct (list_eq_dec Byte.byte_eq_dec _ _); congruence.
Qed.
End HMACTokens.

Lemma X14_SignedString_three_segments_witness :
  Method sampleToken
    = HMAC_SigningMethod all_available concat_mac SigningMethodHS256 /\
  SignedString braces_Marshal StandardClaims sampleToken (IfaceBytes [x6b])
    = ("e30.e30.a2UzMC5lMzA"%string, None) /\
  countByte "e30.e30.a2UzMC5lMzA" "." = 2%nat.
Proof.
  split; [reflexivity|]. split; [reflexivity|].
  exact (proj2 (X14_SignedString_three_segments braces_Marshal StandardClaims
                  all_available concat_mac sampleToken SigningMethodHS256
                  (IfaceBytes [x6b]) "e30.e30.a2UzMC5lMzA" eq_refl eq_refl)).
Defined.

Lemma X15_SignedString_verifies_witness :
  Method sampleToken
    = HMAC_SigningMethod all_available concat_mac SigningMethodHS256 /\
  SignedString braces_Marshal StandardClaims sampleToken (IfaceBytes [x6b])
    = ("e30.e30.a2UzMC5lMzA"%string, None) /\
  exists sstr sig,
    SigningString braces_Marshal StandardClaims sampleToken = (sstr, None) /\
    "e30.e30.a2UzMC5lMzA"%string = (sstr ++ "." ++ sig)%string /\
    Verify (Method sampleToken) sstr sig (IfaceBytes [x6b]) = None.
Proof.
  split; [reflexivity|]. split; [reflexivity|].
  exact (X15_SignedString_verifies braces_Marshal StandardClaims
           all_available concat_mac sampleToken SigningMethodHS256
           (IfaceBytes [x6b]) "e30.e30.a2UzMC5lMzA" eq_refl eq_refl).
Defined.

(** ** Required and optional checks *)

(** X16.  Requiring a claim only makes its check stricter: each of the
    five [Verify...] methods that passes with [required = true] passes
    with [required = false], and the two results differ only when the
    claim is unset. *)
Theorem X16_required_is_stricter (c : StandardClaims) (cmp : string) (now : Z) :
  (VerifyAudience c cmp true = true -> VerifyAudience c cmp false = true) /\
  (VerifyIssuer c cmp true = true -> VerifyIssuer c cmp false = true) /\
  (VerifyExpiresAt c now true = true -> VerifyExpiresAt c now false = true) /\
  (VerifyIssuedAt c now true = true -> VerifyIssuedAt c now false = true) /\
  (VerifyNotBefore c now true = true -> VerifyNotBefore c now false = true) /\
  (Audience c <> EmptyString ->
   VerifyAudience c cmp true = VerifyAudience c cmp false) /\
  (Issuer c <> EmptyString ->
   VerifyIssuer c cmp true = VerifyIssuer c cmp false) /\
  (ExpiresAt c <> 0 -> VerifyExpiresAt c now true = VerifyExpiresAt c now false) /\
  (IssuedAt c <> 0 -> VerifyIssuedAt c now true = VerifyIssuedAt c now false) /\
  (NotBefore c <> 0 -> VerifyNotBefore c now true = VerifyNotBefore c now false).
Proof.
  unfold VerifyAudience, VerifyIssuer, VerifyExpiresAt, VerifyIssuedAt,
    VerifyNotBefore, verifyAud, verifyIss, verifyExp, verifyIat, verifyNbf.
  destruct (String.eqb_spec (Audience c) ""), (String.eqb_spec (Issuer c) ""),
    (Z.eqb_spec (ExpiresAt c) 0), (Z.eqb_spec (IssuedAt c) 0),
    (Z.eqb_spec (NotBefore c) 0); cbn [negb];
    repeat split; intros; try reflexivity; try assumption;
    try discriminate; contradiction.
Qed.

Lemma X16_required_is_stricter_witness :
  VerifyExpiresAt (sampleClaims 2000 0 0) 1000 true = true /\
  VerifyExpiresAt (sampleClaims 2000 0 0) 1000 false = true.
Proof.
  split; [reflexivity|].
  apply (proj1 (proj2 (proj2 (X16_required_is_stricter
                                 (sampleClaims 2000 0 0) "aud" 1000)))).
  reflexivity.
Defined.

(** ** Encoding in pieces *)

Lemma Encode_RawURL_app (a b : list byte) :
  Z.of_nat (List.length a) mod 3 = 0 ->
  base64.Encode RawURL (a ++ b)
  = base64.Encode RawURL a ++ base64.Encode RawURL b.
Proof.
  induction a as [| a0 | a0 a1 | a0 a1 a2 l IH] using list_ind3; intros H.
  - reflexivity.
  - discriminate.
  - discriminate.
  - change ((a0 :: a1 :: a2 :: l) ++ b) with (a0 :: a1 :: a2 :: (l ++ b)).
    cbn [base64.Encode app]. rewrite IH; [reflexivity|].
    cbn [List.length] in H.
    replace (Z.of_nat (S (S (S (List.length l)))))
      with (Z.of_nat (List.length l) + 1 * 3) in H by lia.
    rewrite Z.mod_add in H by lia. exact H.
Qed.

(** X17.  Encoding composes over concatenation at a multiple of three
    bytes: the encoding of [a ++ b] is the encoding of [a] followed by
    the encoding of [b] when the length of [a] is a multiple of three. *)
Theorem X17_EncodeSegment_app (a b : list byte) :
  Z.of_nat (List.length a) mod 3 = 0 ->
  EncodeSegment (a ++ b) = (EncodeSegment a ++ EncodeSegment b)%string.
Proof.
  intros H. rewrite !EncodeSegment_RawURL, Encode_RawURL_app by exact H.
  apply gostring_app.
Qed.

Lemma X17_EncodeSegment_app_witness :
  Z.of_nat (List.length (bytes "abc")) mod 3 = 0 /\
  EncodeSegment (bytes "abc" ++ bytes "de")
  = (EncodeSegment (bytes "abc") ++ EncodeSegment (bytes "de"))%string.
Proof.
  split; [reflexivity|].
  apply (X17_EncodeSegment_app (bytes "abc") (bytes "de")). reflexivity.
Defined.
